(** * gmail-attachments: PDF attachment extraction over the Gmail API

    A shallow embedding of package [gmail] ([service.go], [mail.go]) and of
    the stand-alone command that preceded it, together with the properties
    its specification states about them.

    Conventions of the embedding.
    - A Go function returning [(T, error)] whose value is meaningless when
      the error is set returns [T + error]; where both components are read
      by the caller it returns a pair whose second component is
      [option error] ([None] is Go's [nil]).
    - A pointer that the code may receive as [nil] ([Message.Payload]) is an
      [option]; dereferencing [None] is a run-time panic.
    - Every call that leaves the process (Gmail API, the writer produced by
      the [WriterGenerator], [Close]) is an oracle that may look at the
      whole history of earlier calls, and is recorded in a trace.
    - [fmt.Printf] and [log.Printf] output is not modelled. *)

From Stdlib Require Import String Ascii List Bool Arith Lia.
From Stdlib.Strings Require Import Byte.
Import ListNotations.
Open Scope string_scope.
Open Scope list_scope.

Set Implicit Arguments.
Set Warnings "-register-all".

(** ** Data model (google.golang.org/api/gmail/v1, fields the code reads) *)

Definition error := string.

Record MessagePartBody := mkBody {
  AttachmentId : string;
  Data : string
}.

(** [Body] and the elements of [Parts] are pointers in Go; the API decoder
    always allocates them, and the model takes them as present. *)
Inductive MessagePart := mkPart {
  PartId : string;
  MimeType : string;
  Filename : string;
  Body : MessagePartBody;
  Parts : list MessagePart
}.

Record Message := mkMessage {
  Id : string;
  Snippet : string;
  Payload : option MessagePart
}.

(** ** External calls and their trace *)

Inductive Event :=
| CallList (userID : string) (q : option string)
| CallGet (userID msgID : string)
| CallAttachmentsGet (userID msgID attID : string)
| CallBatchModify (userID : string) (ids removeLabelIds : list string)
| CallWriterGenerator (filename : string)
| CallOpenFile (filename : string)
| CallWrite (w : nat) (content : list byte)
| CallClose (w : nat).

Definition Trace := list Event.

(** Outcome of a computation: a value, or a Go run-time panic. *)
Inductive Res (A : Type) :=
| Done (a : A) (t : Trace)
| Panic (t : Trace).
Arguments Panic {A} t.

Definition M (A : Type) := Trace -> Res A.

Definition ret {A} (a : A) : M A := fun t => Done a t.

Definition bind {A B} (c : M A) (k : A -> M B) : M B :=
  fun t => match c t with
           | Done a t' => k a t'
           | Panic t' => Panic t'
           end.

Definition panic {A} : M A := fun t => Panic t.

(** An external call: the answer is the oracle's, given the history. *)
Definition remote {R} (ev : Event) (oracle : Trace -> R) : M R :=
  fun t => Done (oracle t) (t ++ [ev]).

(** [p.field] on a pointer [p]. *)
Definition deref {A} (p : option A) : M A :=
  match p with
  | Some a => ret a
  | None => panic
  end.

Notation "x <- c ;; k" := (bind c (fun x => k))
  (at level 61, c at next level, right associativity).

(** ** Collaborators *)

(** [*gmail.Service]: the four remote calls the code issues. *)
Record GmailService := mkGmail {
  MessagesListDo : Trace -> string -> option string
                   -> list Message + error;
  MessagesGetDo : Trace -> string -> string -> Message + error;
  AttachmentsGetDo : Trace -> string -> string -> string
                     -> MessagePartBody + error;
  BatchModifyDo : Trace -> string -> list string -> list string
                  -> option error
}.

(** An [io.Writer] value: its [Write] method, whether its dynamic type also
    implements [io.Reader], and its [Close] method when it implements
    [io.Closer]. *)
Record Writer := mkWriter {
  wid : nat;
  Write : Trace -> list byte -> option error;
  Reader : bool;
  Closer : option (Trace -> option error)
}.

Definition WriterGenerator := Trace -> string -> Writer + error.

(** [base64.URLEncoding.DecodeString], from Go's standard library. *)
Definition Decoder := string -> list byte + error.

Record Service := mkService {
  UserID : string;
  srv : GmailService;
  DefaultQ : string;
  ServiceWriterGenerator : WriterGenerator
}.

Record ProcessedAttachment := mkAttachment {
  AttBody : Writer;
  AttFilename : string
}.

Definition ProcessedAttachments := list ProcessedAttachment.

(** ** mail.go *)

Definition retrieveMessage (g : GmailService) (userID msgID : string)
  : M (Message + error) :=
  remote (CallGet userID msgID) (fun t => MessagesGetDo g t userID msgID).

Definition constructFilename (part : MessagePart) (msg : Message) : string :=
  Filename part ++ "-" ++ Id msg ++ "-" ++ PartId part ++ ".pdf".

Definition retrieveAttachment (g : GmailService) (userID : string)
  (msg : Message) (body : MessagePartBody) : M (MessagePartBody + error) :=
  if negb (AttachmentId body =? "") then
    remote (CallAttachmentsGet userID (Id msg) (AttachmentId body))
           (fun t => AttachmentsGetDo g t userID (Id msg) (AttachmentId body))
  else ret (inl body).

Definition markAsRead (g : GmailService) (userID : string)
  (msgs : list Message) : M (option error) :=
  let msgIds := map Id msgs in
  remote (CallBatchModify userID msgIds ["UNREAD"])
         (fun t => BatchModifyDo g t userID msgIds ["UNREAD"]).

(** ** service.go *)

(** The [Q] parameter of the listing call, set only for a non-empty
    [DefaultQ]. *)
Definition listQ (s : Service) : option string :=
  if negb (DefaultQ s =? "") then Some (DefaultQ s) else None.

Definition ListMessages (s : Service) : M (list Message + error) :=
  remote (CallList (UserID s) (listQ s))
         (fun t => MessagesListDo (srv s) t (UserID s) (listQ s)).

(** [ProcessedAttachments.Close]: the loop, with the local [err]. *)
Fixpoint Close_range (at_ : ProcessedAttachments) (err : option error)
  : M (option error) :=
  match at_ with
  | [] => ret err
  | a :: rest =>
      match Closer (AttBody a) with
      | Some close =>
          er <- remote (CallClose (wid (AttBody a))) close ;;
          Close_range rest
            (match er, err with
             | Some e, None => Some e
             | _, _ => err
             end)
      | None => Close_range rest err
      end
  end.

Definition Close (at_ : ProcessedAttachments) : M (option error) :=
  Close_range at_ None.

Definition processAttachment (dec : Decoder) (s : Service)
  (msg : Message) (part : MessagePart) : M (ProcessedAttachment + error) :=
  let filename := constructFilename part msg in
  r <- remote (CallWriterGenerator filename)
              (fun t => ServiceWriterGenerator s t filename) ;;
  match r with
  | inr err => ret (inr err)
  | inl f =>
      match dec (Data (Body part)) with
      | inr err => ret (inr err)
      | inl fileContent =>
          w <- remote (CallWrite (wid f) fileContent)
                      (fun t => Write f t fileContent) ;;
          match w with
          | Some err => ret (inr err)
          | None =>
              (* f.(io.Reader): a failed type assertion panics *)
              if Reader f
              then ret (inl {| AttBody := f; AttFilename := filename |})
              else panic
          end
      end
  end.

Definition isPDF (part : MessagePart) : bool :=
  MimeType part =? "application/pdf".

Definition setBody (part : MessagePart) (body : MessagePartBody)
  : MessagePart :=
  mkPart (PartId part) (MimeType part) (Filename part) body (Parts part).

(** The [for _, part := range part.Parts] loop of
    [retrieveMessageAttachments], with its accumulator [parts]; [walk] is
    the recursive call. *)
Definition rangeChildren
  (walk : MessagePart -> M (list MessagePart * option error))
  : list MessagePart -> list MessagePart
    -> M (list MessagePart * option error) :=
  fix range (ps : list MessagePart) (parts : list MessagePart) :=
    match ps with
    | [] => ret (parts, None)
    | c :: ps' =>
        r <- walk c ;;
        range ps' (match snd r with
                   | None => parts ++ fst r
                   | Some _ => parts
                   end)
    end.

(** [retrieveMessageAttachments] on a non-nil part.  [part.Body = body]
    updates the node that the returned slice points to. *)
Fixpoint retrieveMessageAttachments_at (s : Service) (msg : Message)
  (part : MessagePart) {struct part}
  : M (list MessagePart * option error) :=
  match part with
  | mkPart pid mime fname body children =>
      if mime =? "application/pdf" then
        r <- retrieveAttachment (srv s) (UserID s) msg body ;;
        match r with
        | inr err => ret ([], Some err)
        | inl body' => ret ([mkPart pid mime fname body' children], None)
        end
      else
        rangeChildren (retrieveMessageAttachments_at s msg) children []
  end.

(** The entry point takes [part *gmail.MessagePart]; [part.MimeType] on a
    nil pointer panics. *)
Definition retrieveMessageAttachments (s : Service) (msg : Message)
  (part : option MessagePart) : M (list MessagePart * option error) :=
  p <- deref part ;;
  retrieveMessageAttachments_at s msg p.

(** The inner loop of [ProcessPDFAttachments]: [false] is [continue OUTER]. *)
Fixpoint rangeParts (dec : Decoder) (s : Service) (msg : Message)
  (parts : list MessagePart) (processedAttachments : ProcessedAttachments)
  : M (ProcessedAttachments * bool) :=
  match parts with
  | [] => ret (processedAttachments, true)
  | p :: rest =>
      r <- processAttachment dec s msg p ;;
      match r with
      | inl att => rangeParts dec s msg rest (processedAttachments ++ [att])
      | inr _ => ret (processedAttachments, false)
      end
  end.

(** Locals of [ProcessPDFAttachments] that the outer loop updates. *)
Record Locals := mkLocals {
  msgs : list Message;
  processedAttachments : ProcessedAttachments;
  processedMsgs : list Message
}.

(** [msgs[i] = msg] *)
Fixpoint store (i : nat) (m : Message) (l : list Message) : list Message :=
  match l, i with
  | [], _ => []
  | _ :: l', O => m :: l'
  | x :: l', S i' => x :: store i' m l'
  end.

(** The [OUTER] loop.  [pending] is what [range] has still to yield: the
    only store into [msgs] is at the index already yielded.  The [msg] of
    [if msg, err := retrieveMessage(...)] is scoped to that [if]; after it,
    [msg] is again the range variable. *)
Fixpoint rangeMsgs (dec : Decoder) (s : Service) (i : nat)
  (pending : list Message) (st : Locals) : M Locals :=
  match pending with
  | [] => ret st
  | msg :: rest =>
      r <- retrieveMessage (srv s) (UserID s) (Id msg) ;;
      let st1 :=
        match r with
        | inl msg' => mkLocals (store i msg' (msgs st))
                               (processedAttachments st) (processedMsgs st)
        | inr _ => st
        end in
      pr <- retrieveMessageAttachments s msg (Payload msg) ;;
      match snd pr with
      | Some _ => rangeMsgs dec s (S i) rest st1
      | None =>
          ir <- rangeParts dec s msg (fst pr) (processedAttachments st1) ;;
          rangeMsgs dec s (S i) rest
            (mkLocals (msgs st1) (fst ir)
               (if snd ir then processedMsgs st1 ++ [msg]
                else processedMsgs st1))
      end
  end.

(** The run up to the end of the loop, with all its locals. *)
Definition processLoop (dec : Decoder) (s : Service) (listed : list Message)
  : M Locals :=
  rangeMsgs dec s 0 listed (mkLocals listed [] []).

(** [ProcessPDFAttachments]; [fileGen] is not read by the body.  The first
    component is [None] for the nil slice. *)
Definition ProcessPDFAttachments (dec : Decoder) (s : Service)
  (fileGen : WriterGenerator) (markRead : bool)
  : M (option ProcessedAttachments * option error) :=
  r <- ListMessages s ;;
  match r with
  | inr err => ret (None, Some err)
  | inl listed =>
      st <- processLoop dec s listed ;;
      _ <- (if markRead
            then markAsRead (srv s) (UserID s) (processedMsgs st)
            else ret None) ;;
      ret (Some (processedAttachments st), None)
  end.

(** ** mail.go: the walk of the stand-alone command

    [processMessagePayload]'s [indent] only feeds the printed output and is
    left out. *)

Definition closeDeferred (f : Writer) : M unit :=
  match Closer f with
  | Some close => _ <- remote (CallClose (wid f)) close ;; ret tt
  | None => ret tt
  end.

Definition processPDFFile (dec : Decoder) (openFile : WriterGenerator)
  (g : GmailService) (userID : string) (part : MessagePart) (msg : Message)
  : M (option error) :=
  r <- retrieveAttachment g userID msg (Body part) ;;
  match r with
  | inr err => ret (Some err)
  | inl body =>
      let filename := constructFilename part msg in
      o <- remote (CallOpenFile filename) (fun t => openFile t filename) ;;
      match o with
      | inr err => ret (Some err)
      | inl f =>
          (* defer f.Close() runs on each of the returns below *)
          res <- match dec (Data body) with
                 | inr err => ret (Some err)
                 | inl fileContent =>
                     remote (CallWrite (wid f) fileContent)
                            (fun t => Write f t fileContent)
                 end ;;
          _ <- closeDeferred f ;;
          ret res
      end
  end.

Definition rangeUntilError (walk : MessagePart -> M (option error))
  : list MessagePart -> M (option error) :=
  fix range (ps : list MessagePart) :=
    match ps with
    | [] => ret None
    | c :: ps' =>
        e <- walk c ;;
        match e with
        | Some err => ret (Some err)
        | None => range ps'
        end
    end.

Fixpoint processMessagePayload (dec : Decoder) (openFile : WriterGenerator)
  (g : GmailService) (userID : string) (msg : Message) (part : MessagePart)
  {struct part} : M (option error) :=
  match part with
  | mkPart _ mime _ _ children =>
      if mime =? "application/pdf" then
        processPDFFile dec openFile g userID part msg
      else
        rangeUntilError (processMessagePayload dec openFile g userID msg)
                        children
  end.

Definition processMessage (dec : Decoder) (openFile : WriterGenerator)
  (g : GmailService) (userID : string) (msg : Message) : M (option error) :=
  match Payload msg with
  | Some payload => processMessagePayload dec openFile g userID msg payload
  | None =>
      r <- retrieveMessage g userID (Id msg) ;;
      match r with
      | inl msg' =>
          match Payload msg' with
          | Some payload =>
              processMessagePayload dec openFile g userID msg' payload
          | None => ret None
          end
      | inr _ => ret None
      end
  end.

(** ** The stand-alone command ([main] with [markAsRead]) *)

Module Cmd.

(** How [main] ends: by returning, or in [log.Fatalf] through [chk]. *)
Inductive Exit :=
| Returned
| Fatal (what : string) (err : error).

Fixpoint rangeListed (dec : Decoder) (openFile : WriterGenerator)
  (g : GmailService) (subject : string) (listed readMsgs : list Message)
  : M (list Message) :=
  match listed with
  | [] => ret readMsgs
  | msg :: rest =>
      e <- processMessage dec openFile g subject msg ;;
      rangeListed dec openFile g subject rest
        (match e with
         | None => readMsgs ++ [msg]
         | Some _ => readMsgs
         end)
  end.

(** [main], from the listing call on; flag parsing and credentials are
    outside the model. *)
Definition main (dec : Decoder) (openFile : WriterGenerator)
  (g : GmailService) (subject q : string) : M Exit :=
  resp <- remote (CallList subject (Some q))
                 (fun t => MessagesListDo g t subject (Some q)) ;;
  match resp with
  | inr err => ret (Fatal "Do list messages" err)
  | inl listed =>
      readMsgs <- rangeListed dec openFile g subject listed [] ;;
      if Nat.ltb 0 (List.length readMsgs) then
        e <- markAsRead g subject readMsgs ;;
        match e with
        | Some err => ret (Fatal "Mark messages as read" err)
        | None => ret Returned
        end
      else ret Returned
  end.

End Cmd.

(** ** The walk, as the specification words it

    Positions in a part tree are paths of child indices.  [preorder] lists
    every node of the tree depth-first, parents before children, children
    left to right; [walkSpec] keeps the nodes whose content type matches
    and that lie under no matching node. *)

Definition Path := list nat.

Definition under {B} (i : nat) (x : Path * B) : Path * B :=
  (i :: fst x, snd x).

Definition numbered {B} (f : MessagePart -> list (Path * B))
  : nat -> list MessagePart -> list (Path * B) :=
  fix go (i : nat) (cs : list MessagePart) :=
    match cs with
    | [] => []
    | c :: cs' => map (under i) (f c) ++ go (S i) cs'
    end.

Fixpoint preorder (p : MessagePart) : list (Path * MessagePart) :=
  match p with
  | mkPart _ _ _ _ children => ([], p) :: numbered preorder 0 children
  end.

(** The nodes strictly above position [pi] in [p], root first. *)
Fixpoint ancestors (p : MessagePart) (pi : Path) : list MessagePart :=
  match pi with
  | [] => []
  | i :: pi' =>
      p :: match nth_error (Parts p) i with
           | Some c => ancestors c pi'
           | None => []
           end
  end.

Definition topmost (root : MessagePart) (x : Path * MessagePart) : bool :=
  isPDF (snd x) && forallb (fun a => negb (isPDF a)) (ancestors root (fst x)).

Definition walkSpec (p : MessagePart) : list (Path * MessagePart) :=
  filter (topmost p) (preorder p).

Fixpoint isPrefix (a b : Path) : bool :=
  match a, b with
  | [], _ => true
  | _ :: _, [] => false
  | i :: a', j :: b' => Nat.eqb i j && isPrefix a' b'
  end.

(** No position of [l] lies strictly below another position of [l]. *)
Definition prefixFree (l : list Path) : bool :=
  forallb (fun a =>
    forallb (fun b => implb (isPrefix a b)
                            (Nat.eqb (List.length a) (List.length b))) l) l.

(** Resolving one matched part, and a sequence of them in order. *)
Definition resolvePart (s : Service) (msg : Message) (q : MessagePart)
  : M (MessagePart + error) :=
  r <- retrieveAttachment (srv s) (UserID s) msg (Body q) ;;
  ret (match r with
       | inl body => inl (setBody q body)
       | inr err => inr err
       end).

Fixpoint resolveAll (s : Service) (msg : Message) (qs : list MessagePart)
  : M (list (MessagePart + error)) :=
  match qs with
  | [] => ret []
  | q :: qs' =>
      r <- resolvePart s msg q ;;
      rs <- resolveAll s msg qs' ;;
      ret (r :: rs)
  end.

(** [r] is an answer to resolving [q]: [q] with a body put in, or an
    error. *)
Definition resolvedFrom (q : MessagePart) (r : MessagePart + error) : Prop :=
  match r with
  | inl q' => exists body, q' = setBody q body
  | inr _ => True
  end.

Definition successes {A E} (rs : list (A + E)) : list A :=
  flat_map (fun r => match r with inl a => [a] | inr _ => [] end) rs.

Definition firstError {A E} (rs : list (A + E)) : option E :=
  match rs with
  | inr e :: _ => Some e
  | _ => None
  end.

(** The matched parts of a tree, in walk order, and what the walker
    answers once each of them has been resolved: the parts whose resolve
    succeeded, and the error of the root when the root itself is the
    match. *)
Definition matched (p : MessagePart) : list MessagePart :=
  map snd (walkSpec p).

Definition walkAnswer (p : MessagePart) (rs : list (MessagePart + error))
  : list MessagePart * option error :=
  (successes rs, if isPDF p then firstError rs else None).

(** Number of attachment fetches in a trace. *)
Definition isAttachmentsGet (ev : Event) : bool :=
  match ev with
  | CallAttachmentsGet _ _ _ => true
  | _ => false
  end.

Definition fetches (t : Trace) : nat :=
  List.length (filter isAttachmentsGet t).

(** The parts whose body has to be fetched from the remote store. *)
Definition remoteBody (q : MessagePart) : bool :=
  negb (AttachmentId (Body q) =? "").

(** The resources [Close] has to release, and what each release answers
    when they are released in sequence from history [t]. *)
Definition closers (at_ : ProcessedAttachments)
  : list (nat * (Trace -> option error)) :=
  flat_map (fun a => match Closer (AttBody a) with
                     | Some close => [(wid (AttBody a), close)]
                     | None => []
                     end) at_.

Fixpoint closeAnswers (cs : list (nat * (Trace -> option error)))
  (t : Trace) : list (option error) :=
  match cs with
  | [] => []
  | (w, close) :: cs' => close t :: closeAnswers cs' (t ++ [CallClose w])
  end.

Fixpoint firstSome {E} (l : list (option E)) : option E :=
  match l with
  | [] => None
  | Some e :: _ => Some e
  | None :: l' => firstSome l'
  end.

(** Identifiers the Gmail API hands out are hexadecimal message ids and
    dotted part numbers; neither contains the separator. *)
Definition chars : string -> list ascii := list_ascii_of_string.

Definition hyphen : ascii := "-"%char.

Definition noHyphen (l : list ascii) : bool :=
  forallb (fun c => negb (Ascii.eqb c hyphen)) l.

Definition hyphenFree (s : string) : bool := noHyphen (chars s).

(** ** The first stand-alone command ([main] without [markAsRead])

    Its [processPDFFile], [retrieveMessage], [retrieveAttachment] and
    [constructFilename] are those of mail.go; its walk logs a failure and
    goes on. *)

Module Cmd0.

Definition rangeAll (walk : MessagePart -> M unit)
  : list MessagePart -> M unit :=
  fix range (ps : list MessagePart) :=
    match ps with
    | [] => ret tt
    | c :: ps' => _ <- walk c ;; range ps'
    end.

Fixpoint processMessagePayload (dec : Decoder) (openFile : WriterGenerator)
  (g : GmailService) (userID : string) (msg : Message) (part : MessagePart)
  {struct part} : M unit :=
  match part with
  | mkPart _ mime _ _ children =>
      if mime =? "application/pdf" then
        _ <- processPDFFile dec openFile g userID part msg ;; ret tt
      else
        rangeAll (processMessagePayload dec openFile g userID msg) children
  end.

Definition processMessage (dec : Decoder) (openFile : WriterGenerator)
  (g : GmailService) (userID : string) (msg : Message) : M unit :=
  match Payload msg with
  | Some payload => processMessagePayload dec openFile g userID msg payload
  | None =>
      r <- retrieveMessage g userID (Id msg) ;;
      match r with
      | inl msg' =>
          match Payload msg' with
          | Some payload =>
              processMessagePayload dec openFile g userID msg' payload
          | None => ret tt
          end
      | inr _ => ret tt
      end
  end.

Fixpoint rangeListed (dec : Decoder) (openFile : WriterGenerator)
  (g : GmailService) (subject : string) (listed : list Message) : M unit :=
  match listed with
  | [] => ret tt
  | msg :: rest =>
      _ <- processMessage dec openFile g subject msg ;;
      rangeListed dec openFile g subject rest
  end.

Definition main (dec : Decoder) (openFile : WriterGenerator)
  (g : GmailService) (subject q : string) : M Cmd.Exit :=
  resp <- remote (CallList subject (Some q))
                 (fun t => MessagesListDo g t subject (Some q)) ;;
  match resp with
  | inr err => ret (Cmd.Fatal "Do list messages" err)
  | inl listed =>
      _ <- rangeListed dec openFile g subject listed ;;
      ret Cmd.Returned
  end.

End Cmd0.

(** ** service.go: construction of the service

    [NewService] runs before any Gmail call; its collaborators
    ([ioutil.ReadAll] on the configuration reader,
    [google.JWTConfigFromJSON], [gmail.NewService], the reader's [Close])
    are each called at most once and are given by their answers.  The Go
    [Service] also keeps the JWT configuration in [cnf]; here it is
    returned beside the service. *)

Module Setup.

Definition GmailReadonlyScope : string :=
  "https://www.googleapis.com/auth/gmail.readonly".

Definition GmailModifyScope : string :=
  "https://www.googleapis.com/auth/gmail.modify".

Record JWTConfig := mkJWT {
  Email : string;
  PrivateKey : list byte;
  Scopes : list string;
  Subject : string
}.

Inductive Call :=
| CallReadAll
| CallJWTConfigFromJSON (data : list byte) (scopes : list string)
| CallGmailNewService (cnf : JWTConfig)
| CallCloseConfig.

(** The [io.Reader] handed to [NewService]: what reading it to the end
    gives, and what its [Close] answers when it is an [io.Closer]. *)
Record ConfigReader := mkConfig {
  ReadAll : list byte + error;
  ConfigCloser : option (option error)
}.

Definition Parser := list byte -> list string -> JWTConfig + error.

Definition setSubject (cnf : JWTConfig) (subject : string) : JWTConfig :=
  mkJWT (Email cnf) (PrivateKey cnf) (Scopes cnf) subject.

(** [os.OpenFile(filename, O_RDWR|O_CREATE|O_TRUNC, 0600)] is [openFile]. *)
Definition FileGenerator (openFile : WriterGenerator) : WriterGenerator :=
  fun t filename =>
    match openFile t filename with
    | inr err => inr err
    | inl f => inl f
    end.

Definition initializeJWTConfig (parse : Parser) (r : ConfigReader)
  (userID : string) : (JWTConfig + error) * list Call :=
  match ReadAll r with
  | inr err => (inr err, [CallReadAll])
  | inl data =>
      let scopes := [GmailReadonlyScope; GmailModifyScope] in
      let calls := [CallReadAll; CallJWTConfigFromJSON data scopes] in
      match parse data scopes with
      | inr err => (inr err, calls)
      | inl cnf => (inl (setSubject cnf userID), calls)
      end
  end.

(** The body of [NewService], before the deferred [Close] runs. *)
Definition NewService_body (parse : Parser)
  (gmailNewService : JWTConfig -> GmailService + error)
  (openFile : WriterGenerator) (config : ConfigReader) (userID : string)
  : (Service * JWTConfig + error) * list Call :=
  match initializeJWTConfig parse config userID with
  | (inr err, calls) => (inr err, calls)
  | (inl cnf, calls) =>
      let calls' := calls ++ [CallGmailNewService cnf] in
      match gmailNewService cnf with
      | inr err => (inr err, calls')
      | inl gmailSrv =>
          (inl (mkService userID gmailSrv "" (FileGenerator openFile), cnf),
           calls')
      end
  end.

Definition NewService (parse : Parser)
  (gmailNewService : JWTConfig -> GmailService + error)
  (openFile : WriterGenerator) (config : ConfigReader) (userID : string)
  : (Service * JWTConfig + error) * list Call :=
  let r := NewService_body parse gmailNewService openFile config userID in
  (fst r,
   snd r ++ match ConfigCloser config with
            | Some _ => [CallCloseConfig]
            | None => []
            end).

Definition isClose (c : Call) : bool :=
  match c with
  | CallCloseConfig => true
  | _ => false
  end.

End Setup.

(** ** Classes of calls, and subsequences *)

Definition isGet (ev : Event) : bool :=
  match ev with
  | CallGet _ _ => true
  | _ => false
  end.

Definition isBatchModify (ev : Event) : bool :=
  match ev with
  | CallBatchModify _ _ _ => true
  | _ => false
  end.

Definition isList (ev : Event) : bool :=
  match ev with
  | CallList _ _ => true
  | _ => false
  end.

(** Calls on the sink: the generator and the writers it hands out. *)
Definition isSink (ev : Event) : bool :=
  match ev with
  | CallWriterGenerator _ | CallWrite _ _ => true
  | _ => false
  end.


Inductive Subseq {A : Type} : list A -> list A -> Prop :=
| Subseq_nil : Subseq [] []
| Subseq_skip : forall x l1 l2, Subseq l1 l2 -> Subseq l1 (x :: l2)
| Subseq_keep : forall x l1 l2, Subseq l1 l2 -> Subseq (x :: l1) (x :: l2).

(** The fetch the resolver issues for a part with a remote body. *)
Definition fetchOf (userID : string) (msg : Message) (q : MessagePart)
  : Event :=
  CallAttachmentsGet userID (Id msg) (AttachmentId (Body q)).



(** Calls [ProcessPDFAttachments] issues inside its loop. *)
Definition inLoop (ev : Event) : bool :=
  isGet ev || isAttachmentsGet ev || isSink ev.

(** Some node of the tree has content type [application/pdf]. *)
Definition hasPDF (p : MessagePart) : bool :=
  existsb (fun x => isPDF (snd x)) (preorder p).




(** ** Fixtures: an in-memory mailbox and sink *)

Definition staticGmail (listed : list Message + error)
  (get : string -> Message + error)
  (att : string -> string -> MessagePartBody + error)
  (batch : option error) : GmailService :=
  mkGmail (fun _ _ _ => listed) (fun _ _ id => get id)
          (fun _ _ m a => att m a) (fun _ _ _ _ => batch).

Definition memWriter (n : nat) : Writer :=
  mkWriter n (fun _ _ => None) true (Some (fun _ => None)).

(** Hands out a buffer numbered by the length of the history. *)
Definition memSink : WriterGenerator :=
  fun t _ => inl (memWriter (List.length t)).

Definition helloBytes : list byte := [x48; x65; x6c; x6c; x6f].

(** Agrees with Go's decoder on the three inputs the fixtures use. *)
Definition demoDecode : Decoder :=
  fun s => if s =? "SGVsbG8=" then inl helloBytes
           else if s =? "" then inl []
           else inr "illegal base64 data at input byte 0".

Definition serviceOf (g : GmailService) : Service :=
  mkService "me" g "is:unread" memSink.

Definition pdfPart (pid fname attID data : string) : MessagePart :=
  mkPart pid "application/pdf" fname (mkBody attID data) [].

Definition mixed (pid : string) (children : list MessagePart) : MessagePart :=
  mkPart pid "multipart/mixed" "" (mkBody "" "") children.

Definition textPart (pid : string) : MessagePart :=
  mkPart pid "text/plain" "" (mkBody "" "aGk=") [].

Definition noSuchMessage : string -> Message + error :=
  fun _ => inr "googleapi: Error 404: Not Found".

Definition noSuchAttachment : string -> string -> MessagePartBody + error :=
  fun _ _ => inr "googleapi: Error 500: Backend Error".

(** A summary as the listing call returns it: no part tree. *)
Definition summary (id : string) : Message := mkMessage id "" None.

(** M5: a multipart message whose only PDF lives in the remote store. *)
Definition m5tree : MessagePart :=
  mixed "" [textPart "0"; pdfPart "1" "statement.pdf" "A1" ""].

Definition m5 : Message := mkMessage "M5" "" (Some m5tree).

(** M3: two inline PDFs, the second with a malformed body. *)
Definition m3tree : MessagePart :=
  mixed "" [pdfPart "0" "a.pdf" "" "SGVsbG8="; pdfPart "1" "b.pdf" "" "!!!"].

Definition m3 : Message := mkMessage "M3" "" (Some m3tree).

(** A tree with a PDF nested under a PDF, and PDFs at several depths. *)
Definition deepTree : MessagePart :=
  mixed "" [ mixed "0" [textPart "0.0"; pdfPart "0.1" "x.pdf" "" "SGVsbG8="];
             mkPart "1" "application/pdf" "outer.pdf" (mkBody "A7" "")
                    [pdfPart "1.0" "inner.pdf" "" "SGVsbG8="];
             pdfPart "2" "y.pdf" "A9" "" ].

(** M1: a single inline PDF, no nesting. *)
Definition m1tree : MessagePart := pdfPart "0" "stmt.pdf" "" "SGVsbG8=".

Definition m1 : Message := mkMessage "M1" "" (Some m1tree).

Definition m1attachment (n : nat) : ProcessedAttachment :=
  mkAttachment (memWriter n) "stmt.pdf-M1-0.pdf".

(** A listed value of M1 that carries a tree without attachments, while
    the full message has the PDF. *)
Definition m1stale : Message := mkMessage "M1" "" (Some (textPart "")).

Definition fullM1 : string -> Message + error :=
  fun id => if id =? "M1" then inl m1 else inr "googleapi: Error 404".

Definition forbidden : error :=
  "googleapi: Error 403: Insufficient Permission".

(** Mailboxes of the scenarios below. *)
Definition boxNestedFailure : GmailService :=
  staticGmail (inl [m5]) (fun _ => inl m5) noSuchAttachment None.

Definition boxSummaryUnfetchable : GmailService :=
  staticGmail (inl [summary "M1"]) noSuchMessage noSuchAttachment None.

Definition boxSummary : GmailService :=
  staticGmail (inl [summary "M1"]) fullM1 noSuchAttachment None.

Definition boxStale : GmailService :=
  staticGmail (inl [m1stale]) fullM1 noSuchAttachment None.

Definition boxMarkFails : GmailService :=
  staticGmail (inl [m1]) fullM1 noSuchAttachment (Some forbidden).

Definition boxEmpty : GmailService :=
  staticGmail (inl []) noSuchMessage noSuchAttachment None.

Definition boxDecodeFailure : GmailService :=
  staticGmail (inl [m3; m1]) (fun _ => inl m3) noSuchAttachment None.

(** M6: three inline PDFs, the middle one with a malformed body. *)
Definition m6tree : MessagePart :=
  mixed "" [pdfPart "0" "a.pdf" "" "SGVsbG8="; pdfPart "1" "b.pdf" "" "!!!";
            pdfPart "2" "c.pdf" "" "SGVsbG8="].

Definition m6 : Message := mkMessage "M6" "" (Some m6tree).

(** A configuration file and stand-ins for the two constructors. *)
Definition demoConfig : Setup.ConfigReader :=
  Setup.mkConfig (inl [x7b; x7d]) (Some None).

Definition brokenConfig : Setup.ConfigReader :=
  Setup.mkConfig (inr "read /dev/full: input/output error") (Some None).

Definition demoParse : Setup.Parser :=
  fun _ scopes =>
    inl (Setup.mkJWT "svc@example.iam.gserviceaccount.com" [] scopes "").

Definition demoNewService : Setup.JWTConfig -> GmailService + error :=
  fun _ => inl boxEmpty.

(** * Proofs *)

(** ** Induction over part trees *)

Lemma MessagePart_tree_ind (P : MessagePart -> Prop) :
  (forall pid mime fname body children,
      Forall P children -> P (mkPart pid mime fname body children)) ->
  forall p, P p.
Proof.
  intros step. fix IH 1. intros [pid mime fname body children].
  apply step. induction children as [|c cs IHcs]; constructor.
  - apply IH.
  - exact IHcs.
Qed.

Lemma bind_eq {A B} (c : M A) (k : A -> M B) t :
  bind c k t = match c t with
               | Done a t' => k a t'
               | Panic t' => Panic t'
               end.
Proof. reflexivity. Qed.

(** One step of a computation applied to a history. *)
Ltac mred :=
  repeat (progress (rewrite ?bind_eq; unfold ret, panic; cbv beta iota)).

(** ** Unfolding equations of the embedded functions *)

Lemma walk_eq s msg p :
  retrieveMessageAttachments_at s msg p =
  if isPDF p then
    r <- retrieveAttachment (srv s) (UserID s) msg (Body p) ;;
    match r with
    | inr err => ret ([], Some err)
    | inl body' => ret ([setBody p body'], None)
    end
  else rangeChildren (retrieveMessageAttachments_at s msg) (Parts p) [].
Proof. destruct p; reflexivity. Qed.

Lemma retrieveAttachment_eq g uid msg body t :
  retrieveAttachment g uid msg body t =
  if AttachmentId body =? "" then Done (inl body) t
  else Done (AttachmentsGetDo g t uid (Id msg) (AttachmentId body))
            (t ++ [CallAttachmentsGet uid (Id msg) (AttachmentId body)]).
Proof.
  unfold retrieveAttachment. destruct (AttachmentId body =? ""); reflexivity.
Qed.

Lemma retrieveAttachment_total g uid msg body t :
  exists r t', retrieveAttachment g uid msg body t = Done r t'.
Proof.
  rewrite retrieveAttachment_eq.
  destruct (AttachmentId body =? ""); eauto.
Qed.

(** ** Resolving a sequence of parts *)

Lemma resolvePart_total s msg q t :
  exists r t', resolvePart s msg q t = Done r t'.
Proof.
  unfold resolvePart, bind.
  destruct (retrieveAttachment_total (srv s) (UserID s) msg (Body q) t)
    as (r & t' & E).
  rewrite E. eauto.
Qed.

Lemma resolveAll_total s msg qs :
  forall t, exists rs t',
    resolveAll s msg qs t = Done rs t' /\ List.length rs = List.length qs.
Proof.
  induction qs as [|q qs IH]; intros t; simpl.
  - exists [], t. split; reflexivity.
  - unfold bind.
    destruct (resolvePart_total s msg q t) as (r & t1 & E1). rewrite E1.
    destruct (IH t1) as (rs & t2 & E2 & L). rewrite E2.
    exists (r :: rs), t2. split; [reflexivity | simpl; congruence].
Qed.

Lemma resolveAll_resolvedFrom s msg qs :
  forall t rs t',
    resolveAll s msg qs t = Done rs t' -> Forall2 resolvedFrom qs rs.
Proof.
  induction qs as [|q qs IH]; intros t rs t' E; simpl in E.
  - inversion E. constructor.
  - revert E. unfold resolvePart. mred.
    destruct (retrieveAttachment (srv s) (UserID s) msg (Body q) t)
      as [r t1|t1]; [|discriminate].
    mred.
    destruct (resolveAll s msg qs t1) as [rs2 t2|t2] eqn:E2; [|discriminate].
    intros E. inversion E; subst. constructor; [|eapply IH; eauto].
    destruct r as [b|e]; simpl; eauto.
Qed.

Lemma resolveAll_app s msg l1 l2 :
  forall t,
    resolveAll s msg (l1 ++ l2) t =
    (r1 <- resolveAll s msg l1 ;;
     r2 <- resolveAll s msg l2 ;;
     ret (r1 ++ r2)) t.
Proof.
  induction l1 as [|q l1 IH]; intros t; simpl; mred.
  - destruct (resolveAll s msg l2 t); reflexivity.
  - destruct (resolvePart s msg q t) as [r t1|t1]; [|reflexivity].
    mred. rewrite IH. mred.
    destruct (resolveAll s msg l1 t1) as [r1 t2|t2]; [|reflexivity].
    mred. destruct (resolveAll s msg l2 t2); reflexivity.
Qed.

Lemma successes_app {A E} (r1 r2 : list (A + E)) :
  successes (r1 ++ r2) = successes r1 ++ successes r2.
Proof. unfold successes. apply flat_map_app. Qed.

(** ** The specification's walk, by cases on the root *)

Lemma preorder_eq p :
  preorder p = ([], p) :: numbered preorder 0 (Parts p).
Proof. destruct p; reflexivity. Qed.

Lemma filter_map_under {B} (f : Path * B -> bool) i (l : list (Path * B)) :
  filter f (map (under i) l) = map (under i) (filter (fun x => f (under i x)) l).
Proof.
  induction l as [|x l IH]; simpl; [reflexivity|].
  destruct (f (under i x)); simpl; rewrite IH; reflexivity.
Qed.

Lemma filter_none {A} (l : list A) : filter (fun _ => false) l = [].
Proof. induction l; simpl; auto. Qed.

Lemma topmost_under root i c x :
  nth_error (Parts root) i = Some c ->
  topmost root (under i x) = negb (isPDF root) && topmost c x.
Proof.
  intros E. unfold topmost, under. simpl. rewrite E.
  destruct (isPDF (snd x)), (isPDF root); reflexivity.
Qed.

Lemma filter_numbered root :
  forall cs i,
    (forall k c, nth_error cs k = Some c ->
                 nth_error (Parts root) (i + k) = Some c) ->
    filter (topmost root) (numbered preorder i cs) =
    if isPDF root then [] else numbered walkSpec i cs.
Proof.
  induction cs as [|c cs IH]; intros i Hnth; simpl.
  - destruct (isPDF root); reflexivity.
  - rewrite filter_app, filter_map_under, IH.
    + assert (Ec : nth_error (Parts root) i = Some c).
      { rewrite <- (Nat.add_0_r i). apply Hnth. reflexivity. }
      rewrite (filter_ext _ (fun x => negb (isPDF root) && topmost c x)).
      2:{ intros x. apply topmost_under, Ec. }
      destruct (isPDF root); simpl.
      * rewrite filter_none. reflexivity.
      * reflexivity.
    + intros k c' E. replace (S i + k) with (i + S k) by lia.
      apply Hnth. exact E.
Qed.

Lemma walkSpec_eq p :
  walkSpec p = if isPDF p then [([], p)] else numbered walkSpec 0 (Parts p).
Proof.
  unfold walkSpec at 1. rewrite preorder_eq. simpl filter.
  rewrite filter_numbered by (intros k c E; exact E).
  unfold topmost. simpl. destruct (isPDF p); reflexivity.
Qed.

Lemma map_snd_numbered {B} (f : MessagePart -> list (Path * B)) :
  forall cs i,
    map snd (numbered f i cs) = flat_map (fun c => map snd (f c)) cs.
Proof.
  induction cs as [|c cs IH]; intros i; simpl; [reflexivity|].
  rewrite map_app, map_map, IH. reflexivity.
Qed.

(** ** The walk of [retrieveMessageAttachments] against the specification's *)

Lemma matched_eq p :
  matched p = if isPDF p then [p]
              else flat_map matched (Parts p).
Proof.
  unfold matched at 1. rewrite walkSpec_eq.
  destruct (isPDF p); [reflexivity|].
  apply map_snd_numbered.
Qed.

Lemma rangeChildren_char s msg :
  forall cs,
    Forall (fun c => forall t,
      retrieveMessageAttachments_at s msg c t =
      (rs <- resolveAll s msg (matched c) ;; ret (walkAnswer c rs)) t) cs ->
    forall parts t,
      rangeChildren (retrieveMessageAttachments_at s msg) cs parts t =
      (rs <- resolveAll s msg (flat_map matched cs) ;;
       ret (parts ++ successes rs, None)) t.
Proof.
  induction 1 as [|c cs Hc Hcs IH]; intros parts t; simpl.
  - mred. rewrite app_nil_r. reflexivity.
  - mred. rewrite Hc, resolveAll_app. mred.
    destruct (resolveAll_total s msg (matched c) t) as (rs1 & t1 & E1 & L1).
    rewrite E1. mred. rewrite IH. mred.
    destruct (resolveAll s msg (flat_map matched cs) t1) as [rs2 t2|t2];
      [|reflexivity].
    rewrite successes_app, app_assoc.
    unfold walkAnswer. simpl snd. simpl fst.
    rewrite matched_eq in L1.
    destruct (isPDF c); [|reflexivity].
    destruct rs1 as [|[a|e] [|? ?]]; try discriminate L1; simpl;
      rewrite ?app_nil_r; reflexivity.
Qed.

Lemma walk_char s msg :
  forall p t,
    retrieveMessageAttachments_at s msg p t =
    (rs <- resolveAll s msg (matched p) ;; ret (walkAnswer p rs)) t.
Proof.
  induction p as [pid mime fname body children IH]
    using MessagePart_tree_ind.
  intros t. rewrite walk_eq, matched_eq.
  set (p := mkPart pid mime fname body children) in *.
  unfold walkAnswer.
  destruct (isPDF p) eqn:Epdf.
  - simpl resolveAll. unfold resolvePart. mred.
    destruct (retrieveAttachment (srv s) (UserID s) msg (Body p) t)
      as [[b|e] t1|t1]; reflexivity.
  - rewrite rangeChildren_char by exact IH. simpl. reflexivity.
Qed.

(** ** Positions of the matched parts *)

Lemma In_numbered {B} (f : MessagePart -> list (Path * B)) x :
  forall cs i,
    In x (numbered f i cs) ->
    exists k c y, nth_error cs k = Some c /\ In y (f c)
                  /\ x = under (i + k) y.
Proof.
  induction cs as [|c cs IH]; intros i Hin; simpl in Hin; [contradiction|].
  apply in_app_or in Hin. destruct Hin as [Hin|Hin].
  - apply in_map_iff in Hin. destruct Hin as (y & <- & Hy).
    exists 0, c, y. rewrite Nat.add_0_r. auto.
  - destruct (IH _ Hin) as (k & c' & y & Hk & Hy & ->).
    exists (S k), c', y. replace (i + S k) with (S i + k) by lia. auto.
Qed.

Lemma walkSpec_prefix p :
  forall x y, In x (walkSpec p) -> In y (walkSpec p) ->
              isPrefix (fst x) (fst y) = true -> fst x = fst y.
Proof.
  induction p as [pid mime fname body children IH]
    using MessagePart_tree_ind.
  intros x y Hx Hy Hpre. rewrite walkSpec_eq in Hx, Hy.
  destruct (isPDF _).
  - destruct Hx as [<-|[]]. destruct Hy as [<-|[]]. reflexivity.
  - simpl Parts in *.
    destruct (In_numbered _ _ _ _ Hx) as (k1 & c1 & x' & Hk1 & Hx' & ->).
    destruct (In_numbered _ _ _ _ Hy) as (k2 & c2 & y' & Hk2 & Hy' & ->).
    simpl in *. apply andb_prop in Hpre. destruct Hpre as [Hk Hpre].
    apply Nat.eqb_eq in Hk. subst k2.
    assert (c2 = c1) by congruence. subst c2.
    rewrite Forall_forall in IH.
    f_equal. apply (IH c1); eauto using nth_error_In.
Qed.

Lemma walkSpec_prefixFree p : prefixFree (map fst (walkSpec p)) = true.
Proof.
  unfold prefixFree. apply forallb_forall. intros a Ha.
  apply forallb_forall. intros b Hb.
  apply in_map_iff in Ha. destruct Ha as (x & <- & Hx).
  apply in_map_iff in Hb. destruct Hb as (y & <- & Hy).
  destruct (isPrefix (fst x) (fst y)) eqn:E; [|reflexivity].
  simpl. rewrite (walkSpec_prefix p x y Hx Hy E). apply Nat.eqb_refl.
Qed.

(** ** The walk of [processMessagePayload] against the specification's *)

Lemma rangeUntilError_app f l1 l2 :
  forall t,
    rangeUntilError f (l1 ++ l2) t =
    (e <- rangeUntilError f l1 ;;
     match e with
     | Some err => ret (Some err)
     | None => rangeUntilError f l2
     end) t.
Proof.
  induction l1 as [|q l1 IH]; intros t; simpl; mred; [reflexivity|].
  destruct (f q t) as [[e|] t1|t1]; mred; try reflexivity.
  rewrite IH. mred. reflexivity.
Qed.

Lemma rangeUntilError_char (walk f : MessagePart -> M (option error)) :
  forall cs,
    Forall (fun c => forall t, walk c t = rangeUntilError f (matched c) t) cs ->
    forall t,
      rangeUntilError walk cs t = rangeUntilError f (flat_map matched cs) t.
Proof.
  induction 1 as [|c cs Hc Hcs IH]; intros t; simpl; [reflexivity|].
  rewrite rangeUntilError_app. mred. rewrite Hc.
  destruct (rangeUntilError f (matched c) t) as [[e|] t1|t1];
    mred; auto.
Qed.

Lemma processMessagePayload_eq dec openFile g uid msg p :
  processMessagePayload dec openFile g uid msg p =
  if isPDF p then processPDFFile dec openFile g uid p msg
  else rangeUntilError (processMessagePayload dec openFile g uid msg)
                       (Parts p).
Proof. destruct p; reflexivity. Qed.

Lemma processMessagePayload_char dec openFile g uid msg :
  forall p t,
    processMessagePayload dec openFile g uid msg p t =
    rangeUntilError (fun q => processPDFFile dec openFile g uid q msg)
                    (matched p) t.
Proof.
  induction p as [pid mime fname body children IH]
    using MessagePart_tree_ind.
  intros t. rewrite processMessagePayload_eq, matched_eq.
  destruct (isPDF _).
  - simpl. mred.
    destruct (processPDFFile _ _ _ _ _ _ t) as [[e|] t1|t1]; reflexivity.
  - simpl Parts. apply rangeUntilError_char. exact IH.
Qed.

(** * The walker's contract *)

(** C2. On every part tree the walker resolves, in this order, exactly the
    parts that [walkSpec] selects from the pre-order enumeration of the
    tree (content type [application/pdf], no ancestor of that type): the
    k-th answer [rs] belongs to the k-th selected part, and the walker
    returns the parts among [rs], in the same order.  The walk of
    [processMessagePayload] handles the same parts in the same order up to
    its first failure.  No selected position lies below another one, so a
    matching part is never descended into. *)
Theorem walker_preorder_topmost
  (dec : Decoder) (openFile : WriterGenerator)
  (s : Service) (msg : Message) (part : MessagePart) (t : Trace) :
  (exists rs t',
      resolveAll s msg (map snd (walkSpec part)) t = Done rs t'
      /\ Forall2 resolvedFrom (map snd (walkSpec part)) rs
      /\ retrieveMessageAttachments_at s msg part t
         = Done (successes rs, if isPDF part then firstError rs else None)
                t')
  /\ processMessagePayload dec openFile (srv s) (UserID s) msg part t =
       rangeUntilError
         (fun q => processPDFFile dec openFile (srv s) (UserID s) q msg)
         (map snd (walkSpec part)) t
  /\ walkSpec part = filter (topmost part) (preorder part)
  /\ prefixFree (map fst (walkSpec part)) = true.
Proof.
  split; [|split; [|split]].
  - destruct (resolveAll_total s msg (matched part) t) as (rs & t' & E & _).
    exists rs, t'. split; [exact E|]. split.
    + apply (resolveAll_resolvedFrom _ _ _ _ E).
    + rewrite walk_char. mred. fold (matched part). rewrite E. reflexivity.
  - apply processMessagePayload_char.
  - reflexivity.
  - apply walkSpec_prefixFree.
Qed.

(** ** Counting attachment fetches *)

Lemma fetches_app t1 t2 : fetches (t1 ++ t2) = fetches t1 + fetches t2.
Proof. unfold fetches. rewrite filter_app, length_app. reflexivity. Qed.

Lemma resolveAll_fetches s msg qs :
  forall t rs t',
    resolveAll s msg qs t = Done rs t' ->
    fetches t' = fetches t + List.length (filter remoteBody qs).
Proof.
  induction qs as [|q qs IH]; intros t rs t' E; simpl in E.
  - inversion E; subst. simpl. lia.
  - revert E. unfold resolvePart. mred. rewrite retrieveAttachment_eq.
    unfold remoteBody at 1. simpl filter.
    destruct (AttachmentId (Body q) =? ""); mred.
    + destruct (resolveAll s msg qs t) as [rs2 t2|t2] eqn:E2;
        [|discriminate].
      intros E. inversion E; subst. simpl negb. cbv iota.
      apply (IH _ _ _ E2).
    + destruct (resolveAll s msg qs _) as [rs2 t2|t2] eqn:E2;
        [|discriminate].
      intros E. inversion E; subst.
      rewrite (IH _ _ _ E2), fetches_app.
      change (fetches [CallAttachmentsGet (UserID s) (Id msg)
                        (AttachmentId (Body q))]) with 1.
      simpl. fold remoteBody. lia.
Qed.

(** * The resolver's contract *)

(** C3. [retrieveAttachment] issues one [Attachments.Get] for the body's
    attachment identifier and answers what that call returns when the
    identifier is non-empty, and issues no call and answers the body it was
    given when the identifier is empty.  On a part of content type
    [application/pdf] the walker accordingly puts the fetched body in the
    part, or returns the part as it is.  Over a whole tree the number of fetches is the number of
    matched parts whose identifier is non-empty. *)
Theorem resolver_one_fetch_or_none
  (s : Service) (msg : Message) (pid fname : string)
  (body : MessagePartBody) (children : list MessagePart)
  (tree : MessagePart) (t : Trace) :
  let part := mkPart pid "application/pdf" fname body children in
  retrieveAttachment (srv s) (UserID s) msg body t =
    (if AttachmentId body =? "" then Done (inl body) t
     else
       Done (AttachmentsGetDo (srv s) t (UserID s) (Id msg)
                              (AttachmentId body))
            (t ++ [CallAttachmentsGet (UserID s) (Id msg)
                                      (AttachmentId body)]))
  /\ retrieveMessageAttachments_at s msg part t =
    (if AttachmentId body =? "" then Done ([part], None) t
     else
       Done (match AttachmentsGetDo (srv s) t (UserID s) (Id msg)
                                    (AttachmentId body) with
             | inl fetched => ([setBody part fetched], None)
             | inr err => ([], Some err)
             end)
            (t ++ [CallAttachmentsGet (UserID s) (Id msg)
                                      (AttachmentId body)]))
  /\ exists r t',
       retrieveMessageAttachments_at s msg tree t = Done r t'
       /\ fetches t' = fetches t + List.length (filter remoteBody (matched tree)).
Proof.
  split; [apply retrieveAttachment_eq|]. split.
  - simpl. mred. rewrite retrieveAttachment_eq.
    destruct (AttachmentId body =? ""); [reflexivity|].
    destruct (AttachmentsGetDo _ _ _ _ _); reflexivity.
  - rewrite walk_char. mred.
    destruct (resolveAll_total s msg (matched tree) t) as (rs & t' & E & _).
    rewrite E. eexists _, t'. split; [reflexivity|].
    apply (resolveAll_fetches _ _ _ _ E).
Qed.

(** * Errors of the walker *)

(** C10. [retrieveMessageAttachments] answers a non-nil error exactly when
    the root part has content type [application/pdf] and its attachment
    fetch fails; the list is then empty.  On any other root the error is
    nil and the list holds, in walk order, the matched parts whose resolve
    succeeded: a matched part below the root whose resolve fails is left
    out and its error is dropped. *)
Theorem walker_error_only_from_root
  (s : Service) (msg : Message) (part : MessagePart) (t : Trace) :
  (forall parts e t',
      retrieveMessageAttachments_at s msg part t = Done (parts, Some e) t' <->
      isPDF part = true /\ parts = []
      /\ retrieveAttachment (srv s) (UserID s) msg (Body part) t
         = Done (inr e) t')
  /\ (isPDF part = false ->
      exists rs t',
        resolveAll s msg (matched part) t = Done rs t'
        /\ retrieveMessageAttachments_at s msg part t
           = Done (successes rs, None) t').
Proof.
  split.
  - intros parts e t'. rewrite walk_eq.
    destruct (isPDF part) eqn:Epdf.
    + mred.
      destruct (retrieveAttachment (srv s) (UserID s) msg (Body part) t)
        as [[b|e0] t1|t1]; split.
      * intros E; inversion E.
      * intros (_ & _ & E). inversion E.
      * intros E; inversion E; subst. auto.
      * intros (_ & -> & E). inversion E; subst. reflexivity.
      * intros E; inversion E.
      * intros (_ & _ & E); inversion E.
    + split; [|intros (E & _); discriminate E].
      pose proof (walk_char s msg part t) as C. rewrite walk_eq, Epdf in C.
      rewrite C. mred.
      destruct (resolveAll s msg (matched part) t); intros E;
        inversion E as [[E1 E2 E3]].
      unfold walkAnswer in *. rewrite Epdf in E2. discriminate E2.
  - intros Epdf. rewrite walk_char. mred.
    destruct (resolveAll_total s msg (matched part) t) as (rs & t' & E & _).
    rewrite E. exists rs, t'. unfold walkAnswer. rewrite Epdf. auto.
Qed.

(** * Bulk release *)

Lemma Close_range_char :
  forall at_ err t,
    Close_range at_ err t =
    Done (match err with
          | Some e => Some e
          | None => firstSome (closeAnswers (closers at_) t)
          end)
         (t ++ map CallClose (map fst (closers at_))).
Proof.
  induction at_ as [|a rest IH]; intros err t; simpl.
  - rewrite app_nil_r. destruct err; reflexivity.
  - destruct (Closer (AttBody a)) as [close|]; simpl.
    + mred. unfold remote. rewrite IH, <- app_assoc. simpl.
      destruct err, (close t); reflexivity.
    + apply IH.
Qed.

(** C8. [Close] calls the [Close] method of every attachment whose body is
    an [io.Closer], once each and in order, whatever the earlier calls
    answered, calls nothing on the other attachments, and returns the
    first non-nil answer (nil when there is none). *)
Theorem Close_all_first_error (at_ : ProcessedAttachments) (t : Trace) :
  Close at_ t =
    Done (firstSome (closeAnswers (closers at_) t))
         (t ++ map CallClose (map fst (closers at_)))
  /\ List.length (closeAnswers (closers at_) t)
     = List.length (filter (fun a => match Closer (AttBody a) with
                                     | Some _ => true
                                     | None => false
                                     end) at_)
  /\ map fst (closers at_)
     = map (fun a => wid (AttBody a))
           (filter (fun a => match Closer (AttBody a) with
                             | Some _ => true
                             | None => false
                             end) at_).
Proof.
  split; [apply Close_range_char|]. split.
  - revert t. induction at_ as [|a rest IH]; intros t; simpl; [reflexivity|].
    destruct (Closer (AttBody a)); simpl; rewrite IH; reflexivity.
  - induction at_ as [|a rest IH]; simpl; [reflexivity|].
    destruct (Closer (AttBody a)); simpl; rewrite IH; reflexivity.
Qed.

(** * Filename synthesis *)

Lemma chars_app a b : chars (a ++ b) = (chars a ++ chars b)%list.
Proof. induction a as [|c a IH]; simpl; [reflexivity|]. rewrite IH. reflexivity. Qed.

Lemma chars_inj a b : chars a = chars b -> a = b.
Proof.
  intros E. rewrite <- (string_of_list_ascii_of_string a),
                    <- (string_of_list_ascii_of_string b).
  unfold chars in E. rewrite E. reflexivity.
Qed.

Lemma noHyphen_mid a b : noHyphen (a ++ hyphen :: b) = false.
Proof.
  unfold noHyphen. rewrite forallb_app.
  change (forallb (fun c => negb (Ascii.eqb c hyphen)) (hyphen :: b))
    with false.
  apply andb_false_r.
Qed.

(** A text is cut in one way only at its last separator. *)
Lemma cut_at_last_hyphen :
  forall a c b d,
    noHyphen b = true -> noHyphen d = true ->
    (a ++ hyphen :: b = c ++ hyphen :: d)%list -> a = c /\ b = d.
Proof.
  induction a as [|x a IH]; intros [|y c] b d Hb Hd E; simpl in E.
  - inversion E. auto.
  - inversion E; subst. rewrite noHyphen_mid in Hb. discriminate.
  - inversion E; subst. rewrite noHyphen_mid in Hd. discriminate.
  - inversion E; subst. destruct (IH c b d Hb Hd) as [-> ->]; auto.
Qed.

Lemma constructFilename_chars part msg :
  chars (constructFilename part msg) =
  ((chars (Filename part) ++ hyphen :: chars (Id msg))
     ++ hyphen :: (chars (PartId part) ++ chars ".pdf"))%list.
Proof.
  unfold constructFilename. rewrite !chars_app, <- app_assoc. reflexivity.
Qed.

Lemma noHyphen_suffix s :
  hyphenFree s = true -> noHyphen (chars s ++ chars ".pdf") = true.
Proof.
  intros H. unfold hyphenFree, noHyphen in *. rewrite forallb_app, H.
  reflexivity.
Qed.

Lemma constructFilename_parts part1 msg1 part2 msg2 :
  hyphenFree (Id msg1) = true -> hyphenFree (PartId part1) = true ->
  hyphenFree (Id msg2) = true -> hyphenFree (PartId part2) = true ->
  constructFilename part1 msg1 = constructFilename part2 msg2 ->
  Filename part1 = Filename part2 /\ Id msg1 = Id msg2
  /\ PartId part1 = PartId part2.
Proof.
  intros Hm1 Hp1 Hm2 Hp2 E. apply (f_equal chars) in E.
  rewrite !constructFilename_chars in E.
  apply cut_at_last_hyphen in E; try (apply noHyphen_suffix; assumption).
  destruct E as [E1 E2].
  apply app_inv_tail in E2.
  apply cut_at_last_hyphen in E1; try assumption.
  destruct E1 as [E1 E3].
  auto using chars_inj.
Qed.

(** C5, as the code has it.  When message identifiers and part identifiers
    contain no ['-'], two parts that differ in their (message identifier,
    part identifier) pair get different filenames, whatever their original
    filenames are. *)
Theorem constructFilename_distinct
  (part1 : MessagePart) (msg1 : Message)
  (part2 : MessagePart) (msg2 : Message) :
  hyphenFree (Id msg1) = true -> hyphenFree (PartId part1) = true ->
  hyphenFree (Id msg2) = true -> hyphenFree (PartId part2) = true ->
  (Id msg1, PartId part1) <> (Id msg2, PartId part2) ->
  constructFilename part1 msg1 <> constructFilename part2 msg2.
Proof.
  intros Hm1 Hp1 Hm2 Hp2 Hne E. apply Hne.
  destruct (constructFilename_parts _ _ _ _ Hm1 Hp1 Hm2 Hp2 E)
    as (_ & -> & ->).
  reflexivity.
Qed.

Lemma constructFilename_distinct_witness :
  constructFilename (pdfPart "0" "a.pdf" "" "SGVsbG8=") (summary "17c2a9")
  <> constructFilename (pdfPart "1" "a.pdf" "" "SGVsbG8=") (summary "17c2a9").
Proof.
  apply constructFilename_distinct; try reflexivity.
  simpl. intros E. inversion E.
Defined.

(** The separator may occur in the identifiers themselves: two parts with
    one original filename and different identifier pairs, one filename. *)
Lemma constructFilename_collision :
  ~ (forall part1 msg1 part2 msg2,
        (Id msg1, PartId part1) <> (Id msg2, PartId part2) ->
        constructFilename part1 msg1 <> constructFilename part2 msg2).
Proof.
  intros H.
  apply (H (pdfPart "c" "s.pdf" "" "") (summary "a-b")
           (pdfPart "b-c" "s.pdf" "" "") (summary "a")).
  - simpl. intros E. inversion E.
  - reflexivity.
Qed.

(** * The run *)

Lemma rangeParts_keeps_earlier dec s msg :
  forall parts acc t acc' ok t',
    rangeParts dec s msg parts acc t = Done (acc', ok) t' ->
    exists new,
      acc' = acc ++ new
      /\ List.length new <= List.length parts
      /\ (ok = true <-> List.length new = List.length parts).
Proof.
  induction parts as [|p rest IH]; intros acc t acc' ok t' E; simpl in E.
  - inversion E; subst. exists []. rewrite app_nil_r. simpl. intuition.
  - revert E. mred.
    destruct (processAttachment dec s msg p t) as [[att|e] t1|t1];
      intros E; try discriminate.
    + destruct (IH _ _ _ _ _ E) as (new & -> & Hlen & Hok).
      exists (att :: new). rewrite <- app_assoc. simpl.
      split; [reflexivity|]. split; [lia|].
      rewrite Hok. split; intros; lia.
    + inversion E; subst. exists []. rewrite app_nil_r. simpl.
      split; [reflexivity|]. split; [lia|]. split; intros; discriminate.
Qed.

(** A listed message without a part tree stops the run: the range variable
    still holds the listed value when its [Payload] is handed to the
    walker. *)
Lemma rangeMsgs_nil_payload dec s i msg rest st t :
  Payload msg = None ->
  rangeMsgs dec s i (msg :: rest) st t
  = Panic (t ++ [CallGet (UserID s) (Id msg)]).
Proof.
  intros E. simpl. mred. unfold retrieveMessage, remote.
  unfold retrieveMessageAttachments. rewrite E. reflexivity.
Qed.

Lemma run_nil_payload_first dec s fileGen markRead msg rest t :
  MessagesListDo (srv s) t (UserID s) (listQ s) = inl (msg :: rest) ->
  Payload msg = None ->
  ProcessPDFAttachments dec s fileGen markRead t
  = Panic (t ++ [CallList (UserID s) (listQ s);
                 CallGet (UserID s) (Id msg)]).
Proof.
  intros EL EP. unfold ProcessPDFAttachments, ListMessages. mred.
  unfold remote at 1. rewrite EL. mred. unfold processLoop.
  rewrite rangeMsgs_nil_payload by exact EP.
  rewrite <- app_assoc. reflexivity.
Qed.

(** Once the listing call has succeeded the run never answers an error,
    and with [markRead] set its last call is the batch modification,
    whatever that call answers and however many messages it names. *)
Lemma run_after_listing dec s fileGen markRead listed t r t' :
  MessagesListDo (srv s) t (UserID s) (listQ s) = inl listed ->
  ProcessPDFAttachments dec s fileGen markRead t = Done r t' ->
  exists st t1,
    processLoop dec s listed (t ++ [CallList (UserID s) (listQ s)])
    = Done st t1
    /\ r = (Some (processedAttachments st), None)
    /\ t' = if markRead
            then t1 ++ [CallBatchModify (UserID s)
                          (map Id (processedMsgs st)) ["UNREAD"]]
            else t1.
Proof.
  intros EL. unfold ProcessPDFAttachments, ListMessages. mred.
  unfold remote at 1. rewrite EL. mred.
  destruct (processLoop dec s listed _) as [st t1|t1]; [|discriminate].
  intros H. exists st, t1. split; [reflexivity|].
  destruct markRead; simpl in H; inversion H; auto.
Qed.

(** A message whose root is not a PDF and none of whose matched parts
    resolves is appended to [processedMsgs], with no attachment added. *)
Lemma rangeMsgs_unresolved_marked dec s i msg p rest st t rs t1 :
  Payload msg = Some p ->
  isPDF p = false ->
  resolveAll s msg (matched p) (t ++ [CallGet (UserID s) (Id msg)])
  = Done rs t1 ->
  successes rs = [] ->
  exists fetched,
    rangeMsgs dec s i (msg :: rest) st t
    = rangeMsgs dec s (S i) rest
        (mkLocals fetched (processedAttachments st)
                  (processedMsgs st ++ [msg])) t1.
Proof.
  intros EP Epdf ER ES. simpl. mred. unfold retrieveMessage, remote.
  unfold retrieveMessageAttachments. rewrite EP. simpl deref. mred.
  rewrite walk_char. mred. rewrite ER. unfold walkAnswer.
  rewrite Epdf, ES. simpl.
  destruct (MessagesGetDo (srv s) t (UserID s) (Id msg)) as [m'|e];
    eexists; reflexivity.
Qed.

(** * Scenarios *)

(** C1. Message M5 carries its PDF under a [multipart/mixed] root and the
    attachment fetch fails.  [ProcessPDFAttachments] returns no attachment
    and still names M5 in the batch modification; the stand-alone command
    on the same mailbox issues no modification. *)
Theorem nested_resolve_failure_marked_read :
  ProcessPDFAttachments demoDecode (serviceOf boxNestedFailure) memSink true []
  = Done (Some [], None)
         [CallList "me" (Some "is:unread"); CallGet "me" "M5";
          CallAttachmentsGet "me" "M5" "A1";
          CallBatchModify "me" ["M5"] ["UNREAD"]]
  /\ Cmd.main demoDecode memSink boxNestedFailure "me" "is:unread" []
     = Done Cmd.Returned
            [CallList "me" (Some "is:unread"); CallAttachmentsGet "me" "M5" "A1"].
Proof. split; reflexivity. Qed.

(** C4. The listing yields the summary of M1 and the fetch of M1 fails.
    [ProcessPDFAttachments] panics on the absent part tree right after the
    fetch; the stand-alone command skips extraction and then marks M1 as
    read. *)
Theorem unfetchable_summary_panics :
  ProcessPDFAttachments demoDecode (serviceOf boxSummaryUnfetchable)
                        memSink true []
  = Panic [CallList "me" (Some "is:unread"); CallGet "me" "M1"]
  /\ Cmd.main demoDecode memSink boxSummaryUnfetchable "me" "is:unread" []
     = Done Cmd.Returned
            [CallList "me" (Some "is:unread"); CallGet "me" "M1";
             CallBatchModify "me" ["M1"] ["UNREAD"]].
Proof. split; reflexivity. Qed.

(** C9. The listing yields the summary of M1 and the fetch of M1 succeeds
    with its full tree: [ProcessPDFAttachments] still hands the summary's
    absent tree to the walker and panics.  When the listed value carries a
    tree of its own, the fetched message is stored in [msgs] and the walk
    runs over the listed tree: the PDF of the fetched message is not
    extracted. *)
Theorem extraction_uses_listed_value :
  ProcessPDFAttachments demoDecode (serviceOf boxSummary) memSink true []
  = Panic [CallList "me" (Some "is:unread"); CallGet "me" "M1"]
  /\ processLoop demoDecode (serviceOf boxStale) [m1stale] []
     = Done (mkLocals [m1] [] [m1stale]) [CallGet "me" "M1"].
Proof. split; reflexivity. Qed.

(** C6. M1 is extracted and the batch modification fails.
    [ProcessPDFAttachments] returns the attachment with a nil error; the
    stand-alone command ends in [log.Fatalf] with that error. *)
Theorem mark_read_failure_not_reported :
  ProcessPDFAttachments demoDecode (serviceOf boxMarkFails) memSink true []
  = Done (Some [m1attachment 2], None)
         [CallList "me" (Some "is:unread"); CallGet "me" "M1";
          CallWriterGenerator "stmt.pdf-M1-0.pdf"; CallWrite 2 helloBytes;
          CallBatchModify "me" ["M1"] ["UNREAD"]]
  /\ Cmd.main demoDecode memSink boxMarkFails "me" "is:unread" []
     = Done (Cmd.Fatal "Mark messages as read" forbidden)
            [CallList "me" (Some "is:unread"); CallOpenFile "stmt.pdf-M1-0.pdf";
             CallWrite 1 helloBytes; CallClose 1;
             CallBatchModify "me" ["M1"] ["UNREAD"]].
Proof. split; reflexivity. Qed.

(** C7. On an empty listing [ProcessPDFAttachments] with [markRead] set
    issues a batch modification naming no message; the stand-alone command
    issues none. *)
Theorem empty_set_still_modified :
  ProcessPDFAttachments demoDecode (serviceOf boxEmpty) memSink true []
  = Done (Some [], None)
         [CallList "me" (Some "is:unread"); CallBatchModify "me" [] ["UNREAD"]]
  /\ Cmd.main demoDecode memSink boxEmpty "me" "is:unread" []
     = Done Cmd.Returned [CallList "me" (Some "is:unread")].
Proof. split; reflexivity. Qed.

Lemma walker_error_only_from_root_witness :
  isPDF m5tree = false
  /\ exists rs t',
       resolveAll (serviceOf boxNestedFailure) m5 (matched m5tree) []
       = Done rs t'
       /\ retrieveMessageAttachments_at (serviceOf boxNestedFailure) m5
            m5tree []
          = Done (successes rs, None) t'.
Proof.
  split; [reflexivity|].
  apply (proj2 (walker_error_only_from_root
                  (serviceOf boxNestedFailure) m5 m5tree [])).
  reflexivity.
Defined.

(** * The specification's end-to-end scenarios, on listed values that carry
      their part tree *)

(** The walk on a tree with PDFs at several depths, one of them under
    another PDF. *)
Example walkSpec_deepTree :
  map fst (preorder deepTree) = [[]; [0]; [0; 0]; [0; 1]; [1]; [1; 0]; [2]]
  /\ map fst (walkSpec deepTree) = [[0; 1]; [1]; [2]]
  /\ map PartId (matched deepTree) = ["0.1"; "1"; "2"].
Proof. repeat split. Qed.

(** Scenario A: one inline PDF, decoded to [Hello] and marked as read. *)
Example scenario_inline_pdf :
  ProcessPDFAttachments demoDecode
    (serviceOf (staticGmail (inl [m1]) fullM1 noSuchAttachment None))
    memSink true []
  = Done (Some [m1attachment 2], None)
         [CallList "me" (Some "is:unread"); CallGet "me" "M1";
          CallWriterGenerator "stmt.pdf-M1-0.pdf"; CallWrite 2 helloBytes;
          CallBatchModify "me" ["M1"] ["UNREAD"]].
Proof. reflexivity. Qed.

(** Scenario B: the PDF of M5 is fetched once from the remote store. *)
Example scenario_remote_pdf :
  ProcessPDFAttachments demoDecode
    (serviceOf (staticGmail (inl [m5]) (fun _ => inl m5)
                  (fun _ _ => inl (mkBody "" "SGVsbG8=")) None))
    memSink true []
  = Done (Some [mkAttachment (memWriter 3) "statement.pdf-M5-1.pdf"], None)
         [CallList "me" (Some "is:unread"); CallGet "me" "M5";
          CallAttachmentsGet "me" "M5" "A1";
          CallWriterGenerator "statement.pdf-M5-1.pdf";
          CallWrite 3 helloBytes;
          CallBatchModify "me" ["M5"] ["UNREAD"]].
Proof. reflexivity. Qed.

(** Scenario C: the second PDF of M3 does not decode; the first one stays
    in the output, M3 is not marked, and M1 is still processed. *)
Example scenario_decode_failure :
  ProcessPDFAttachments demoDecode (serviceOf boxDecodeFailure) memSink true []
  = Done (Some [mkAttachment (memWriter 2) "a.pdf-M3-0.pdf";
                m1attachment 6], None)
         [CallList "me" (Some "is:unread"); CallGet "me" "M3";
          CallWriterGenerator "a.pdf-M3-0.pdf"; CallWrite 2 helloBytes;
          CallWriterGenerator "b.pdf-M3-1.pdf"; CallGet "me" "M1";
          CallWriterGenerator "stmt.pdf-M1-0.pdf"; CallWrite 6 helloBytes;
          CallBatchModify "me" ["M1"] ["UNREAD"]].
Proof. reflexivity. Qed.

(** * Further properties of the walker *)

Lemma resolveAll_trace s msg qs :
  forall t rs t',
    resolveAll s msg qs t = Done rs t' ->
    t' = t ++ map (fetchOf (UserID s) msg) (filter remoteBody qs).
Proof.
  induction qs as [|q qs IH]; intros t rs t' E; simpl in E.
  - inversion E; subst. simpl. rewrite app_nil_r. reflexivity.
  - revert E. unfold resolvePart. mred. rewrite retrieveAttachment_eq.
    simpl filter. unfold remoteBody at 1.
    destruct (AttachmentId (Body q) =? ""); mred.
    + destruct (resolveAll s msg qs t) as [rs2 t2|t2] eqn:E2;
        [|discriminate].
      intros E. inversion E; subst. simpl. apply (IH _ _ _ E2).
    + destruct (resolveAll s msg qs _) as [rs2 t2|t2] eqn:E2;
        [|discriminate].
      intros E. inversion E; subst. rewrite (IH _ _ _ E2).
      simpl. rewrite <- app_assoc. reflexivity.
Qed.

Lemma walk_done s msg part t :
  exists rs,
    resolveAll s msg (matched part) t
    = Done rs (t ++ map (fetchOf (UserID s) msg)
                        (filter remoteBody (matched part)))
    /\ Forall2 resolvedFrom (matched part) rs
    /\ retrieveMessageAttachments_at s msg part t
       = Done (walkAnswer part rs)
              (t ++ map (fetchOf (UserID s) msg)
                        (filter remoteBody (matched part))).
Proof.
  destruct (resolveAll_total s msg (matched part) t) as (rs & t' & E & _).
  pose proof (resolveAll_trace _ _ _ _ E) as ->.
  exists rs. split; [exact E|]. split.
  - apply (resolveAll_resolvedFrom _ _ _ _ E).
  - rewrite walk_char. mred. rewrite E. reflexivity.
Qed.


Lemma matched_isPDF p : Forall (fun q => isPDF q = true) (matched p).
Proof.
  unfold matched, walkSpec. apply Forall_forall. intros q Hq.
  apply in_map_iff in Hq. destruct Hq as (x & <- & Hx).
  apply filter_In in Hx. destruct Hx as [_ Hx].
  unfold topmost in Hx. apply andb_prop in Hx. tauto.
Qed.

Lemma successes_resolvedFrom qs rs :
  Forall2 resolvedFrom qs rs ->
  Forall (fun q' => exists q body, In q qs /\ q' = setBody q body)
         (successes rs)
  /\ List.length (successes rs) <= List.length qs.
Proof.
  induction 1 as [|q r qs rs Hr H IH]; simpl.
  - split; [constructor | lia].
  - destruct IH as [IH1 IH2].
    assert (Forall (fun q' => exists q0 body,
                      (q = q0 \/ In q0 qs) /\ q' = setBody q0 body)
                   (successes rs)) as IH1'.
    { eapply Forall_impl; [|exact IH1].
      intros a (q0 & b & Hin & ->). eauto. }
    destruct r as [q'|e]; simpl in *.
    + destruct Hr as (b & ->). split; [|lia].
      constructor; eauto.
    + split; [exact IH1' | lia].
Qed.

(** X2. Whatever the walker returns is built from the matched parts of the
    tree: every returned part has content type [application/pdf] and is a
    matched part in which only [Body] was replaced. *)
Theorem walker_returns_pdf_parts
  (s : Service) (msg : Message) (part : MessagePart) (t : Trace)
  (parts : list MessagePart) (err : option error) (t' : Trace) :
  retrieveMessageAttachments_at s msg part t = Done (parts, err) t' ->
  Forall (fun q' =>
            isPDF q' = true
            /\ exists q body,
                 In q (map snd (walkSpec part))
                 /\ q' = setBody q body) parts
  /\ List.length parts <= List.length (walkSpec part).
Proof.
  intros E. destruct (walk_done s msg part t) as (rs & _ & HF & E').
  rewrite E' in E. inversion E; subst. clear E.
  destruct (successes_resolvedFrom HF) as [H1 H2].
  split.
  - eapply Forall_impl; [|exact H1].
    intros q' (q & b & Hin & ->). split; [|eauto].
    pose proof (matched_isPDF part) as Hp. rewrite Forall_forall in Hp.
    specialize (Hp q Hin). destruct q; exact Hp.
  - unfold matched in H2. rewrite length_map in H2. exact H2.
Qed.

Lemma walker_returns_pdf_parts_witness :
  retrieveMessageAttachments_at (serviceOf boxNestedFailure) m5 deepTree []
  = Done ([pdfPart "0.1" "x.pdf" "" "SGVsbG8="], None)
         [CallAttachmentsGet "me" "M5" "A7";
          CallAttachmentsGet "me" "M5" "A9"]
  /\ Forall (fun q' =>
               isPDF q' = true
               /\ exists q body,
                    In q (map snd (walkSpec deepTree))
                    /\ q' = setBody q body)
            [pdfPart "0.1" "x.pdf" "" "SGVsbG8="]
  /\ List.length [pdfPart "0.1" "x.pdf" "" "SGVsbG8="]
     <= List.length (walkSpec deepTree).
Proof.
  split; [reflexivity|].
  apply (walker_returns_pdf_parts (serviceOf boxNestedFailure) m5 deepTree
           [] (err := None)
           (t' := [CallAttachmentsGet "me" "M5" "A7";
                   CallAttachmentsGet "me" "M5" "A9"])).
  reflexivity.
Defined.

(** * Further properties of [Close] *)

Lemma Close_range_app a b :
  forall err t,
    Close_range (a ++ b) err t
    = (e1 <- Close_range a err ;; Close_range b e1) t.
Proof.
  induction a as [|x a IH]; intros err t; simpl; mred; [reflexivity|].
  destruct (Closer (AttBody x)) as [close|].
  - mred. unfold remote. rewrite IH. mred. reflexivity.
  - rewrite IH. mred. reflexivity.
Qed.

(** X3. Closing two batches at once is closing the first and then the
    second: the same calls in the same order, and the error is the first
    batch's when it has one, else the second batch's. *)
Theorem Close_app (a b : ProcessedAttachments) (t : Trace) :
  Close (a ++ b) t
  = (e1 <- Close a ;;
     e2 <- Close b ;;
     ret (match e1 with
          | Some e => Some e
          | None => e2
          end)) t.
Proof.
  unfold Close. rewrite Close_range_app. mred.
  rewrite (Close_range_char a None t). mred.
  rewrite !Close_range_char.
  destruct (firstSome (closeAnswers (closers a) t)); reflexivity.
Qed.

(** * Further properties of the run *)

Lemma store_length m :
  forall l i, List.length (store i m l) = List.length l.
Proof. induction l as [|x l IH]; intros [|i]; simpl; auto. Qed.

Lemma processAttachment_done dec s msg p t r t' :
  processAttachment dec s msg p t = Done r t' ->
  exists evs,
    t' = t ++ evs /\ forallb isSink evs = true
    /\ match r with
       | inl att => AttFilename att = constructFilename p msg
       | inr _ => True
       end.
Proof.
  unfold processAttachment. mred. unfold remote.
  destruct (ServiceWriterGenerator s t _) as [f|e].
  - destruct (dec (Data (Body p))) as [content|e]; mred.
    + destruct (Write f _ content) as [e|].
      * intros E; inversion E; subst. rewrite <- app_assoc.
        eexists; split; [reflexivity|]. split; [reflexivity|exact I].
      * destruct (Reader f); intros E; inversion E; subst.
        rewrite <- app_assoc.
        eexists; split; [reflexivity|]. split; reflexivity.
    + intros E; inversion E; subst.
      eexists; split; [reflexivity|]. split; [reflexivity|exact I].
  - intros E; inversion E; subst.
    eexists; split; [reflexivity|]. split; [reflexivity|exact I].
Qed.

Lemma rangeParts_inv dec s msg :
  forall parts acc t acc' ok t',
    rangeParts dec s msg parts acc t = Done (acc', ok) t' ->
    exists new evs,
      acc' = acc ++ new /\ t' = t ++ evs /\ forallb isSink evs = true
      /\ Forall (fun att => exists p, In p parts
                   /\ AttFilename att = constructFilename p msg) new.
Proof.
  induction parts as [|p rest IH]; intros acc t acc' ok t' E; simpl in E.
  - inversion E; subst. exists [], []. rewrite !app_nil_r. auto.
  - revert E. mred.
    destruct (processAttachment dec s msg p t) as [[att|e] t1|t1] eqn:EP;
      intros E; try discriminate;
      destruct (processAttachment_done _ _ _ _ _ EP) as (ev1 & -> & H1 & Hf).
    + destruct (IH _ _ _ _ _ E) as (new & ev2 & -> & -> & H2 & HF).
      exists (att :: new), (ev1 ++ ev2).
      rewrite <- !app_assoc, forallb_app, H1, H2. simpl.
      repeat split; auto. constructor.
      * exists p. auto.
      * eapply Forall_impl; [|exact HF]. intros a (q & Hq & Ha). eauto.
    + inversion E; subst. exists [], ev1. rewrite app_nil_r. auto.
Qed.

(** One turn of the [OUTER] loop that does not panic. *)
Lemma rangeMsgs_step dec s i msg rest st t st' t' :
  rangeMsgs dec s i (msg :: rest) st t = Done st' t' ->
  exists p ms rs,
    Payload msg = Some p
    /\ List.length ms = List.length (msgs st)
    /\ Forall2 resolvedFrom (matched p) rs
    /\ let t1 := (t ++ [CallGet (UserID s) (Id msg)])
                 ++ map (fetchOf (UserID s) msg)
                        (filter remoteBody (matched p)) in
       match snd (walkAnswer p rs) with
       | Some _ =>
           rangeMsgs dec s (S i) rest
             (mkLocals ms (processedAttachments st) (processedMsgs st)) t1
           = Done st' t'
       | None =>
           exists atts ok t2,
             rangeParts dec s msg (successes rs)
                        (processedAttachments st) t1
             = Done (atts, ok) t2
             /\ rangeMsgs dec s (S i) rest
                  (mkLocals ms atts
                     (if ok then processedMsgs st ++ [msg]
                      else processedMsgs st)) t2
                = Done st' t'
       end.
Proof.
  destruct st as [m0 a0 pm0].
  simpl. mred. unfold retrieveMessage, remote.
  unfold retrieveMessageAttachments.
  destruct (Payload msg) as [p|]; [|discriminate]. simpl deref. mred.
  destruct (walk_done s msg p (t ++ [CallGet (UserID s) (Id msg)]))
    as (rs & _ & HF & ->).
  assert (exists ms,
            List.length ms = List.length m0
            /\ match MessagesGetDo (srv s) t (UserID s) (Id msg) with
               | inl msg' => mkLocals (store i msg' m0) a0 pm0
               | inr _ => mkLocals m0 a0 pm0
               end = mkLocals ms a0 pm0) as (ms & Hlen & Est).
  { destruct (MessagesGetDo _ _ _ _) as [m'|e].
    - exists (store i m' m0). split; [apply store_length|reflexivity].
    - exists m0. split; reflexivity. }
  intros E. simpl in E. rewrite Est in E. simpl in E.
  exists p, ms, rs.
  split; [reflexivity|]. split; [exact Hlen|]. split; [exact HF|].
  cbv zeta. unfold walkAnswer. simpl snd.
  destruct (if isPDF p then firstError rs else None).
  - exact E.
  - revert E. mred.
    destruct (rangeParts dec s msg (successes rs) a0 _)
      as [[atts ok] t2|t2]; [|discriminate].
    intros E. exists atts, ok, t2. split; [reflexivity|exact E].
Qed.

Lemma sink_calls evs :
  forallb isSink evs = true ->
  filter isGet evs = [] /\ forallb inLoop evs = true.
Proof.
  induction evs as [|e evs IH]; simpl; [auto|].
  intros H. apply andb_prop in H. destruct H as [He H].
  destruct (IH H) as [IH1 IH2].
  destruct e; try discriminate He; simpl; auto.
Qed.

Lemma fetch_calls u m l :
  filter isGet (map (fetchOf u m) l) = []
  /\ forallb inLoop (map (fetchOf u m) l) = true.
Proof. induction l as [|q l [IH1 IH2]]; simpl; auto. Qed.

Lemma constructFilename_setBody q body msg :
  constructFilename (setBody q body) msg = constructFilename q msg.
Proof. reflexivity. Qed.

(** What a completed pass of the [OUTER] loop over [pending] has done. *)
Lemma rangeMsgs_inv dec s :
  forall pending i st t st' t',
    rangeMsgs dec s i pending st t = Done st' t' ->
    exists evs sel new,
      t' = t ++ evs
      /\ forallb inLoop evs = true
      /\ filter isGet evs = map (fun m => CallGet (UserID s) (Id m)) pending
      /\ processedMsgs st' = processedMsgs st ++ sel
      /\ Subseq sel pending
      /\ processedAttachments st' = processedAttachments st ++ new
      /\ Forall (fun att => exists m p q,
                   In m pending /\ Payload m = Some p /\ In q (matched p)
                   /\ AttFilename att = constructFilename q m) new
      /\ Forall (fun m => Payload m <> None) pending
      /\ List.length (msgs st') = List.length (msgs st).
Proof.
  induction pending as [|msg rest IH]; intros i st t st' t' E.
  - simpl in E. inversion E; subst. exists [], [], [].
    rewrite !app_nil_r. repeat split; constructor.
  - apply rangeMsgs_step in E.
    destruct E as (p & ms & rs & EP & Hlen & HF & E). cbv zeta in E.
    destruct (fetch_calls (UserID s) msg (filter remoteBody (matched p)))
      as [Fg Fl].
    assert (Hweak : forall new : ProcessedAttachments,
      Forall (fun att => exists m p q,
                In m rest /\ Payload m = Some p /\ In q (matched p)
                /\ AttFilename att = constructFilename q m) new ->
      Forall (fun att => exists m p q,
                In m (msg :: rest) /\ Payload m = Some p
                /\ In q (matched p)
                /\ AttFilename att = constructFilename q m) new).
    { intros new H. eapply Forall_impl; [|exact H].
      intros a (m & p0 & q & Hm & H1 & H2 & H3).
      exists m, p0, q. simpl. auto. }
    assert (Hpay : Payload msg <> None) by congruence.
    destruct (snd (walkAnswer p rs)).
    + destruct (IH _ _ _ _ _ E)
        as (ev2 & sel & new & -> & Hl & Hg & Hm & Hs & Ha & Hf & Hp & Hn).
      simpl in Hm, Ha, Hn.
      exists ((CallGet (UserID s) (Id msg)
               :: map (fetchOf (UserID s) msg)
                      (filter remoteBody (matched p))) ++ ev2), sel, new.
      rewrite <- !app_assoc. simpl.
      rewrite forallb_app, filter_app, Fg, Fl, Hl, Hg. simpl.
      repeat split; auto.
      * constructor; assumption.
      * congruence.
    + destruct E as (atts & ok & t2 & ER & E).
      destruct (rangeParts_inv _ _ _ _ _ _ ER)
        as (new1 & ev1 & -> & -> & Hs1 & Hf1).
      destruct (sink_calls _ Hs1) as [Sg Sl].
      destruct (IH _ _ _ _ _ E)
        as (ev2 & sel & new & -> & Hl & Hg & Hm & Hs & Ha & Hf & Hp & Hn).
      simpl in Hm, Ha, Hn.
      exists ((CallGet (UserID s) (Id msg)
               :: map (fetchOf (UserID s) msg)
                      (filter remoteBody (matched p))) ++ ev1 ++ ev2),
             (if ok then msg :: sel else sel), (new1 ++ new).
      rewrite <- !app_assoc. simpl.
      rewrite !forallb_app, !filter_app, Fg, Fl, Sg, Sl, Hl, Hg. simpl.
      repeat split; auto.
      * rewrite Hm. destruct ok; [rewrite <- app_assoc|]; reflexivity.
      * destruct ok; constructor; assumption.
      * rewrite Ha, app_assoc. reflexivity.
      * apply Forall_app. split; [|auto].
        destruct (successes_resolvedFrom HF) as [HS _].
        rewrite Forall_forall in HS.
        eapply Forall_impl; [|exact Hf1].
        intros a (q' & Hq' & Hq).
        destruct (HS _ Hq') as (q & b & Hin & ->).
        exists msg, p, q. simpl. auto.
      * congruence.
Qed.

Lemma Subseq_map {A B} (f : A -> B) l1 l2 :
  Subseq l1 l2 -> Subseq (map f l1) (map f l2).
Proof. induction 1; simpl; constructor; assumption. Qed.

(** X4. When the listing call fails, [ProcessPDFAttachments] returns the nil
    slice with that error and has issued no other call: no fetch, no sink
    call and, even with [markRead], no batch modification. *)
Theorem run_listing_failure
  (dec : Decoder) (s : Service) (fileGen : WriterGenerator)
  (markRead : bool) (t : Trace) (err : error) :
  MessagesListDo (srv s) t (UserID s) (listQ s) = inr err ->
  ProcessPDFAttachments dec s fileGen markRead t
  = Done (None, Some err) (t ++ [CallList (UserID s) (listQ s)]).
Proof.
  intros E. unfold ProcessPDFAttachments, ListMessages. mred.
  unfold remote. rewrite E. reflexivity.
Qed.

Lemma run_listing_failure_witness :
  MessagesListDo
    (srv (serviceOf (staticGmail (inr forbidden) noSuchMessage
                       noSuchAttachment None)))
    [] "me" (Some "is:unread") = inr forbidden
  /\ ProcessPDFAttachments demoDecode
       (serviceOf (staticGmail (inr forbidden) noSuchMessage
                     noSuchAttachment None)) memSink true []
     = Done (None, Some forbidden) [CallList "me" (Some "is:unread")].
Proof.
  split; [reflexivity|].
  apply (run_listing_failure demoDecode
           (serviceOf (staticGmail (inr forbidden) noSuchMessage
                         noSuchAttachment None)) memSink true []).
  reflexivity.
Defined.

(** X5. A run that returns has issued, after the listing call, exactly one
    [Messages.Get] per listed message, in listing order, among attachment
    fetches and sink calls only; the batch modification is its last call
    when [markRead] is set and is absent otherwise, and the identifiers it
    names are a subsequence of the listed identifiers. *)
Theorem run_calls
  (dec : Decoder) (s : Service) (fileGen : WriterGenerator)
  (markRead : bool) (listed : list Message) (t : Trace)
  (r : option ProcessedAttachments * option error) (t' : Trace) :
  MessagesListDo (srv s) t (UserID s) (listQ s) = inl listed ->
  ProcessPDFAttachments dec s fileGen markRead t = Done r t' ->
  exists evs ids,
    t' = t ++ CallList (UserID s) (listQ s) :: evs
           ++ (if markRead
               then [CallBatchModify (UserID s) ids ["UNREAD"]]
               else [])
    /\ forallb inLoop evs = true
    /\ filter isGet evs = map (fun m => CallGet (UserID s) (Id m)) listed
    /\ Subseq ids (map Id listed).
Proof.
  intros EL E.
  destruct (run_after_listing _ _ _ _ _ EL E) as (st & t1 & EP & _ & ->).
  unfold processLoop in EP.
  destruct (rangeMsgs_inv _ _ _ _ _ _ EP)
    as (evs & sel & new & -> & Hl & Hg & Hm & Hs & _).
  simpl in Hm. subst sel.
  exists evs, (map Id (processedMsgs st)).
  split.
  - destruct markRead; rewrite <- !app_assoc; simpl;
      rewrite ?app_nil_r; reflexivity.
  - repeat split; auto. apply Subseq_map, Hs.
Qed.

Lemma run_calls_witness :
  exists evs ids,
    [CallList "me" (Some "is:unread"); CallGet "me" "M3";
     CallWriterGenerator "a.pdf-M3-0.pdf"; CallWrite 2 helloBytes;
     CallWriterGenerator "b.pdf-M3-1.pdf"; CallGet "me" "M1";
     CallWriterGenerator "stmt.pdf-M1-0.pdf"; CallWrite 6 helloBytes;
     CallBatchModify "me" ["M1"] ["UNREAD"]]
    = [] ++ CallList "me" (Some "is:unread") :: evs
         ++ [CallBatchModify "me" ids ["UNREAD"]]
    /\ forallb inLoop evs = true
    /\ filter isGet evs = [CallGet "me" "M3"; CallGet "me" "M1"]
    /\ Subseq ids ["M3"; "M1"].
Proof.
  apply (run_calls demoDecode (serviceOf boxDecodeFailure) memSink true
           (listed := [m3; m1]) []
           (r := (Some [mkAttachment (memWriter 2) "a.pdf-M3-0.pdf";
                        m1attachment 6], None))); reflexivity.
Defined.

(** X6. Every attachment a run returns is named after a matched part of a
    listed message: its filename is [constructFilename] of a part that the
    walk selects in the tree the listing gave for that message. *)
Theorem run_attachment_names
  (dec : Decoder) (s : Service) (fileGen : WriterGenerator)
  (markRead : bool) (listed : list Message) (t : Trace)
  (atts : ProcessedAttachments) (err : option error) (t' : Trace) :
  MessagesListDo (srv s) t (UserID s) (listQ s) = inl listed ->
  ProcessPDFAttachments dec s fileGen markRead t
  = Done (Some atts, err) t' ->
  Forall (fun att => exists m p q,
            In m listed /\ Payload m = Some p
            /\ In q (map snd (walkSpec p))
            /\ AttFilename att = constructFilename q m) atts.
Proof.
  intros EL E.
  destruct (run_after_listing _ _ _ _ _ EL E) as (st & t1 & EP & Er & _).
  inversion Er; subst. unfold processLoop in EP.
  destruct (rangeMsgs_inv _ _ _ _ _ _ EP)
    as (evs & sel & new & _ & _ & _ & _ & _ & Ha & Hf & _).
  simpl in Ha. rewrite Ha. exact Hf.
Qed.

Lemma run_attachment_names_witness :
  Forall (fun att => exists m p q,
            In m [m3; m1] /\ Payload m = Some p
            /\ In q (map snd (walkSpec p))
            /\ AttFilename att = constructFilename q m)
         [mkAttachment (memWriter 2) "a.pdf-M3-0.pdf"; m1attachment 6].
Proof.
  apply (run_attachment_names demoDecode (serviceOf boxDecodeFailure)
           memSink true (listed := [m3; m1]) [] (err := None)
           (t' := [CallList "me" (Some "is:unread"); CallGet "me" "M3";
                   CallWriterGenerator "a.pdf-M3-0.pdf";
                   CallWrite 2 helloBytes;
                   CallWriterGenerator "b.pdf-M3-1.pdf"; CallGet "me" "M1";
                   CallWriterGenerator "stmt.pdf-M1-0.pdf";
                   CallWrite 6 helloBytes;
                   CallBatchModify "me" ["M1"] ["UNREAD"]]));
    reflexivity.
Defined.

(** X7. A run returns only if every listed message carries a part tree: as
    soon as the listing holds a message without one, whatever its position
    and whatever [Messages.Get] answers, the run ends in a panic. *)
Theorem run_needs_part_trees
  (dec : Decoder) (s : Service) (fileGen : WriterGenerator)
  (markRead : bool) (listed : list Message) (msg : Message) (t : Trace) :
  MessagesListDo (srv s) t (UserID s) (listQ s) = inl listed ->
  In msg listed -> Payload msg = None ->
  exists t', ProcessPDFAttachments dec s fileGen markRead t = Panic t'.
Proof.
  intros EL Hin EP.
  destruct (ProcessPDFAttachments dec s fileGen markRead t)
    as [r t'|t'] eqn:E; [|eauto].
  exfalso.
  destruct (run_after_listing _ _ _ _ _ EL E) as (st & t1 & EL' & _).
  unfold processLoop in EL'.
  destruct (rangeMsgs_inv _ _ _ _ _ _ EL')
    as (evs & sel & new & _ & _ & _ & _ & _ & _ & _ & Hp & _).
  rewrite Forall_forall in Hp. exact (Hp _ Hin EP).
Qed.

Lemma run_needs_part_trees_witness :
  exists t',
    ProcessPDFAttachments demoDecode
      (serviceOf (staticGmail (inl [m1; summary "M2"]) fullM1
                    noSuchAttachment None)) memSink true []
    = Panic t'.
Proof.
  apply (run_needs_part_trees demoDecode
           (serviceOf (staticGmail (inl [m1; summary "M2"]) fullM1
                         noSuchAttachment None)) memSink true
           (listed := [m1; summary "M2"]) (summary "M2") []).
  - reflexivity.
  - simpl. auto.
  - reflexivity.
Defined.






Lemma hasPDF_matched p : hasPDF p = false -> matched p = [].
Proof.
  unfold hasPDF, matched, walkSpec. intros H.
  assert (forall l : list (Path * MessagePart),
            existsb (fun x => isPDF (snd x)) l = false ->
            filter (topmost p) l = []) as F.
  { induction l as [|x l IH]; simpl; [reflexivity|].
    intros E. apply orb_false_elim in E. destruct E as [Ex El].
    unfold topmost at 1. rewrite Ex. simpl. auto. }
  rewrite (F _ H). reflexivity.
Qed.

Lemma rangeMsgs_no_pdf dec s :
  forall pending i st t,
    Forall (fun m => exists p, Payload m = Some p /\ hasPDF p = false)
           pending ->
    exists ms,
      rangeMsgs dec s i pending st t
      = Done (mkLocals ms (processedAttachments st)
                       (processedMsgs st ++ pending))
             (t ++ map (fun m => CallGet (UserID s) (Id m)) pending).
Proof.
  induction pending as [|msg rest IH]; intros i st t HP.
  - simpl. exists (msgs st). rewrite !app_nil_r. destruct st; reflexivity.
  - inversion HP as [|? ? (p & EP & Hno) Hrest]; subst.
    pose proof (hasPDF_matched _ Hno) as Hm.
    assert (Epdf : isPDF p = false).
    { rewrite matched_eq in Hm. destruct (isPDF p); [discriminate|auto]. }
    destruct (rangeMsgs_unresolved_marked dec s i msg (p := p) rest st t
                (rs := []) (t1 := t ++ [CallGet (UserID s) (Id msg)])
                EP Epdf) as (fetched & ->).
    + rewrite Hm. reflexivity.
    + reflexivity.
    + destruct (IH (S i)
                  (mkLocals fetched (processedAttachments st)
                            (processedMsgs st ++ [msg]))
                  (t ++ [CallGet (UserID s) (Id msg)]) Hrest)
        as (ms & ->).
      exists ms. simpl. rewrite <- !app_assoc. reflexivity.
Qed.

(** X9. Messages without any PDF part count as processed: when no listed
    tree has a node of content type [application/pdf], the run with
    [markRead] fetches each message, calls neither the attachment store nor
    the sink, returns an empty slice and names every listed message, in
    listing order, in the batch modification. *)
Theorem run_without_pdf_marks_all
  (dec : Decoder) (s : Service) (fileGen : WriterGenerator)
  (listed : list Message) (t : Trace) :
  MessagesListDo (srv s) t (UserID s) (listQ s) = inl listed ->
  Forall (fun m => exists p, Payload m = Some p /\ hasPDF p = false)
         listed ->
  ProcessPDFAttachments dec s fileGen true t
  = Done (Some [], None)
         (t ++ CallList (UserID s) (listQ s)
            :: map (fun m => CallGet (UserID s) (Id m)) listed
            ++ [CallBatchModify (UserID s) (map Id listed) ["UNREAD"]]).
Proof.
  intros EL HP. unfold ProcessPDFAttachments, ListMessages. mred.
  unfold remote at 1. rewrite EL. mred. unfold processLoop.
  destruct (rangeMsgs_no_pdf dec s 0 (mkLocals listed [] [])
              (t ++ [CallList (UserID s) (listQ s)]) HP) as (ms & ->).
  simpl. unfold markAsRead, remote. mred. simpl.
  rewrite <- !app_assoc. reflexivity.
Qed.

Lemma run_without_pdf_marks_all_witness :
  ProcessPDFAttachments demoDecode
    (serviceOf (staticGmail (inl [m1stale; mkMessage "M2" "" (Some (mixed "" []))])
                  noSuchMessage noSuchAttachment None)) memSink true []
  = Done (Some [], None)
         [CallList "me" (Some "is:unread"); CallGet "me" "M1";
          CallGet "me" "M2"; CallBatchModify "me" ["M1"; "M2"] ["UNREAD"]].
Proof.
  apply (run_without_pdf_marks_all demoDecode
           (serviceOf (staticGmail
                         (inl [m1stale; mkMessage "M2" "" (Some (mixed "" []))])
                         noSuchMessage noSuchAttachment None)) memSink
           (listed := [m1stale; mkMessage "M2" "" (Some (mixed "" []))]) []).
  - reflexivity.
  - repeat constructor; eexists; split; reflexivity.
Defined.

(** * The walk of mail.go and the stand-alone commands *)












(** X11. [processMessagePayload] stops at the first matched part that fails:
    it answers that part's error, and its calls are those made for the
    parts up to and including the failing one; the matched parts after it
    are not touched. *)
Theorem processMessagePayload_stops_at_failure
  (dec : Decoder) (openFile : WriterGenerator) (g : GmailService)
  (uid : string) (msg : Message) (part : MessagePart)
  (before : list MessagePart) (q : MessagePart) (after : list MessagePart)
  (t t1 t2 : Trace) (e : error) :
  map snd (walkSpec part) = before ++ q :: after ->
  rangeUntilError (fun c => processPDFFile dec openFile g uid c msg)
                  before t = Done None t1 ->
  processPDFFile dec openFile g uid q msg t1 = Done (Some e) t2 ->
  processMessagePayload dec openFile g uid msg part t = Done (Some e) t2.
Proof.
  intros EM EB EQ. rewrite processMessagePayload_char.
  fold (matched part) in EM. rewrite EM, rangeUntilError_app. mred.
  rewrite EB. simpl. mred. rewrite EQ. reflexivity.
Qed.

Lemma processMessagePayload_stops_at_failure_witness :
  processMessagePayload demoDecode memSink boxNestedFailure "me" m6 m6tree []
  = Done (Some "illegal base64 data at input byte 0")
         [CallOpenFile "a.pdf-M6-0.pdf"; CallWrite 0 helloBytes; CallClose 0;
          CallOpenFile "b.pdf-M6-1.pdf"; CallClose 3].
Proof.
  apply (processMessagePayload_stops_at_failure demoDecode memSink
           boxNestedFailure "me" m6 m6tree
           [pdfPart "0" "a.pdf" "" "SGVsbG8="]
           (pdfPart "1" "b.pdf" "" "!!!")
           [pdfPart "2" "c.pdf" "" "SGVsbG8="]
           []
           (t1 := [CallOpenFile "a.pdf-M6-0.pdf"; CallWrite 0 helloBytes;
                   CallClose 0])); reflexivity.
Defined.



Lemma Cmd_rangeListed_no_tree dec openFile g subject :
  (forall t id, match MessagesGetDo g t subject id with
                | inl m => Payload m = None
                | inr _ => True
                end) ->
  forall listed readMsgs t,
    Forall (fun m => Payload m = None) listed ->
    Cmd.rangeListed dec openFile g subject listed readMsgs t
    = Done (readMsgs ++ listed)
           (t ++ map (fun m => CallGet subject (Id m)) listed).
Proof.
  intros HG. induction listed as [|msg rest IH]; intros readMsgs t HP.
  - simpl. rewrite !app_nil_r. reflexivity.
  - inversion HP as [|? ? Hmsg Hrest]; subst. simpl. mred.
    unfold processMessage. rewrite Hmsg. mred.
    unfold retrieveMessage, remote.
    specialize (HG t (Id msg)).
    destruct (MessagesGetDo g t subject (Id msg)) as [m'|e].
    + rewrite HG. mred. rewrite IH by exact Hrest.
      rewrite <- !app_assoc. reflexivity.
    + mred. rewrite IH by exact Hrest.
      rewrite <- !app_assoc. reflexivity.
Qed.

(** X13. In the stand-alone command a message for which no part tree can be
    obtained (the listing gave none, and [Messages.Get] fails or answers a
    message without one) is skipped by the walk and still marked as read:
    on a non-empty listing of such messages the calls are the listing, one
    fetch per message and a batch modification naming all of them. *)
Theorem Cmd_main_marks_messages_without_tree
  (dec : Decoder) (openFile : WriterGenerator) (g : GmailService)
  (subject q : string) (listed : list Message) (t : Trace) :
  MessagesListDo g t subject (Some q) = inl listed ->
  listed <> [] ->
  Forall (fun m => Payload m = None) listed ->
  (forall t id, match MessagesGetDo g t subject id with
                | inl m => Payload m = None
                | inr _ => True
                end) ->
  exists exit,
    Cmd.main dec openFile g subject q t
    = Done exit
           (t ++ CallList subject (Some q)
              :: map (fun m => CallGet subject (Id m)) listed
              ++ [CallBatchModify subject (map Id listed) ["UNREAD"]]).
Proof.
  intros EL Hne HP HG.
  exists (match BatchModifyDo g
                  (t ++ CallList subject (Some q)
                     :: map (fun m => CallGet subject (Id m)) listed)
                  subject (map Id listed) ["UNREAD"] with
          | Some err => Cmd.Fatal "Mark messages as read" err
          | None => Cmd.Returned
          end).
  unfold Cmd.main. mred. unfold remote at 1.
  rewrite EL. mred.
  rewrite (@Cmd_rangeListed_no_tree dec openFile g subject HG listed [] _ HP).
  change ([] ++ listed) with listed.
  destruct listed as [|m rest]; [congruence|].
  change (Nat.ltb 0 (List.length (m :: rest))) with true. cbv iota.
  unfold markAsRead, remote. mred. rewrite <- !app_assoc. simpl app.
  destruct (BatchModifyDo _ _ _ _ _); reflexivity.
Qed.

Lemma Cmd_main_marks_messages_without_tree_witness :
  exists exit,
    Cmd.main demoDecode memSink
      (staticGmail (inl [summary "M1"; summary "M2"]) noSuchMessage
                   noSuchAttachment None) "me" "is:unread" []
    = Done exit
           [CallList "me" (Some "is:unread"); CallGet "me" "M1";
            CallGet "me" "M2"; CallBatchModify "me" ["M1"; "M2"] ["UNREAD"]].
Proof.
  apply (Cmd_main_marks_messages_without_tree demoDecode memSink
           (staticGmail (inl [summary "M1"; summary "M2"])
              noSuchMessage noSuchAttachment None)
           "me" "is:unread"
           (listed := [summary "M1"; summary "M2"]) []).
  - reflexivity.
  - discriminate.
  - repeat constructor.
  - intros t id. exact I.
Defined.

(** ** The first command *)

Lemma Cmd0_processMessagePayload_eq dec openFile g uid msg p :
  Cmd0.processMessagePayload dec openFile g uid msg p =
  if isPDF p then _ <- processPDFFile dec openFile g uid p msg ;; ret tt
  else Cmd0.rangeAll (Cmd0.processMessagePayload dec openFile g uid msg)
                     (Parts p).
Proof. destruct p; reflexivity. Qed.

Lemma rangeAll_app f l1 l2 :
  forall t,
    Cmd0.rangeAll f (l1 ++ l2) t
    = (_ <- Cmd0.rangeAll f l1 ;; Cmd0.rangeAll f l2) t.
Proof.
  induction l1 as [|q l1 IH]; intros t; simpl; mred; [reflexivity|].
  destruct (f q t) as [[] t1|t1]; [|reflexivity].
  rewrite IH. mred. reflexivity.
Qed.

Lemma rangeAll_char (walk f : MessagePart -> M unit) :
  forall cs,
    Forall (fun c => forall t, walk c t = Cmd0.rangeAll f (matched c) t) cs ->
    forall t,
      Cmd0.rangeAll walk cs t = Cmd0.rangeAll f (flat_map matched cs) t.
Proof.
  induction 1 as [|c cs Hc Hcs IH]; intros t; simpl; [reflexivity|].
  rewrite rangeAll_app. mred. rewrite Hc.
  destruct (Cmd0.rangeAll f (matched c) t) as [[] t1|t1]; auto.
Qed.

Lemma Cmd0_processMessagePayload_char dec openFile g uid msg :
  forall p t,
    Cmd0.processMessagePayload dec openFile g uid msg p t =
    Cmd0.rangeAll
      (fun q => _ <- processPDFFile dec openFile g uid q msg ;; ret tt)
      (matched p) t.
Proof.
  induction p as [pid mime fname body children IH]
    using MessagePart_tree_ind.
  intros t. rewrite Cmd0_processMessagePayload_eq, matched_eq.
  destruct (isPDF _).
  - simpl. mred.
    destruct (processPDFFile _ _ _ _ _ _ t) as [r t1|t1]; reflexivity.
  - simpl Parts. apply rangeAll_char. exact IH.
Qed.

(** X14. The walk of the first command hands every matched part of the tree
    to [processPDFFile], in walk order, whatever the earlier parts
    answered: a failure is logged and the walk goes on. *)
Theorem Cmd0_walk_visits_every_match
  (dec : Decoder) (openFile : WriterGenerator) (g : GmailService)
  (uid : string) (msg : Message) (part : MessagePart) (t : Trace) :
  Cmd0.processMessagePayload dec openFile g uid msg part t =
  Cmd0.rangeAll
    (fun q => _ <- processPDFFile dec openFile g uid q msg ;; ret tt)
    (map snd (walkSpec part)) t.
Proof. apply Cmd0_processMessagePayload_char. Qed.

Lemma rangeUntilError_None_rangeAll (f : MessagePart -> M (option error)) :
  forall l t t',
    rangeUntilError f l t = Done None t' ->
    Cmd0.rangeAll (fun q => _ <- f q ;; ret tt) l t = Done tt t'.
Proof.
  induction l as [|q l IH]; intros t t'; simpl; mred.
  - intros E; inversion E; reflexivity.
  - destruct (f q t) as [[e|] t1|t1]; mred; try discriminate.
    apply IH.
Qed.

(** X15. On a tree that the walk of mail.go handles without error, the walk
    of the first command makes the same calls: the two differ only in what
    they do after a failure. *)
Theorem Cmd0_walk_agrees_without_failure
  (dec : Decoder) (openFile : WriterGenerator) (g : GmailService)
  (uid : string) (msg : Message) (part : MessagePart) (t t' : Trace) :
  processMessagePayload dec openFile g uid msg part t = Done None t' ->
  Cmd0.processMessagePayload dec openFile g uid msg part t = Done tt t'.
Proof.
  rewrite processMessagePayload_char, Cmd0_processMessagePayload_char.
  apply rangeUntilError_None_rangeAll.
Qed.

Lemma Cmd0_walk_agrees_without_failure_witness :
  Cmd0.processMessagePayload demoDecode memSink boxNestedFailure "me" m1
                             m1tree []
  = Done tt [CallOpenFile "stmt.pdf-M1-0.pdf"; CallWrite 0 helloBytes;
             CallClose 0].
Proof.
  apply (Cmd0_walk_agrees_without_failure demoDecode memSink
           boxNestedFailure "me" m1 m1tree []).
  reflexivity.
Defined.




(** * Construction of the service *)

(** X17. [NewService] reads the configuration first and, when the reader is
    an [io.Closer], closes it exactly once, as its last call, on success
    and on every failure; a reader that is no closer is not closed. *)
Theorem NewService_closes_config
  (parse : Setup.Parser)
  (gmailNewService : Setup.JWTConfig -> GmailService + error)
  (openFile : WriterGenerator) (config : Setup.ConfigReader)
  (userID : string) :
  exists steps,
    snd (Setup.NewService parse gmailNewService openFile config userID)
    = Setup.CallReadAll :: steps
        ++ match Setup.ConfigCloser config with
           | Some _ => [Setup.CallCloseConfig]
           | None => []
           end
    /\ forallb (fun c => negb (Setup.isClose c)) steps = true.
Proof.
  unfold Setup.NewService, Setup.NewService_body, Setup.initializeJWTConfig.
  destruct (Setup.ReadAll config) as [data|e]; simpl.
  - destruct (parse data _) as [cnf|e]; simpl.
    + destruct (gmailNewService _); simpl; eexists [_; _]; split;
        reflexivity.
    + eexists [_]; split; reflexivity.
  - exists []; split; reflexivity.
Qed.

(** X18. [NewService] returns a service only when reading, parsing and the
    Gmail constructor all succeeded.  The configuration was parsed for the
    read-only and modify scopes, the client was built from it with
    [Subject] set to [userID], and the service has that [UserID], an empty
    [DefaultQ] (so that [ListMessages] passes no query) and a sink that
    answers as [os.OpenFile] does. *)
Theorem NewService_success
  (parse : Setup.Parser)
  (gmailNewService : Setup.JWTConfig -> GmailService + error)
  (openFile : WriterGenerator) (config : Setup.ConfigReader)
  (userID : string) (sv : Service) (cnf : Setup.JWTConfig)
  (calls : list Setup.Call) :
  Setup.NewService parse gmailNewService openFile config userID
  = (inl (sv, cnf), calls) ->
  exists data parsed,
    Setup.ReadAll config = inl data
    /\ parse data [Setup.GmailReadonlyScope; Setup.GmailModifyScope]
       = inl parsed
    /\ cnf = Setup.setSubject parsed userID
    /\ gmailNewService cnf = inl (srv sv)
    /\ UserID sv = userID
    /\ (forall t,
          ListMessages sv t
          = Done (MessagesListDo (srv sv) t userID None)
                 (t ++ [CallList userID None]))
    /\ (forall t filename,
          ServiceWriterGenerator sv t filename = openFile t filename).
Proof.
  unfold Setup.NewService, Setup.NewService_body, Setup.initializeJWTConfig.
  destruct (Setup.ReadAll config) as [data|e]; simpl; [|discriminate].
  destruct (parse data _) as [parsed|e] eqn:EP; simpl; [|discriminate].
  destruct (gmailNewService _) as [gs|e] eqn:EG; simpl; [|discriminate].
  intros E. inversion E; subst. exists data, parsed.
  repeat split; auto.
  intros t filename. simpl. unfold Setup.FileGenerator.
  destruct (openFile t filename); reflexivity.
Qed.

Lemma NewService_success_witness :
  exists data parsed,
    Setup.ReadAll demoConfig = inl data
    /\ demoParse data [Setup.GmailReadonlyScope; Setup.GmailModifyScope]
       = inl parsed
    /\ Setup.mkJWT "svc@example.iam.gserviceaccount.com" []
         [Setup.GmailReadonlyScope; Setup.GmailModifyScope] "me"
       = Setup.setSubject parsed "me"
    /\ demoNewService
         (Setup.mkJWT "svc@example.iam.gserviceaccount.com" []
            [Setup.GmailReadonlyScope; Setup.GmailModifyScope] "me")
       = inl (srv (mkService "me" boxEmpty "" (Setup.FileGenerator memSink)))
    /\ UserID (mkService "me" boxEmpty "" (Setup.FileGenerator memSink))
       = "me"
    /\ (forall t,
          ListMessages
            (mkService "me" boxEmpty "" (Setup.FileGenerator memSink)) t
          = Done (MessagesListDo boxEmpty t "me" None)
                 (t ++ [CallList "me" None]))
    /\ (forall t filename,
          ServiceWriterGenerator
            (mkService "me" boxEmpty "" (Setup.FileGenerator memSink))
            t filename
          = memSink t filename).
Proof.
  apply (NewService_success (parse := demoParse)
           (gmailNewService := demoNewService) (openFile := memSink)
           (config := demoConfig) (userID := "me")
           (sv := mkService "me" boxEmpty "" (Setup.FileGenerator memSink))
           (cnf := Setup.mkJWT "svc@example.iam.gserviceaccount.com" []
                     [Setup.GmailReadonlyScope; Setup.GmailModifyScope] "me")
           (calls := [Setup.CallReadAll;
                      Setup.CallJWTConfigFromJSON [x7b; x7d]
                        [Setup.GmailReadonlyScope; Setup.GmailModifyScope];
                      Setup.CallGmailNewService
                        (Setup.mkJWT "svc@example.iam.gserviceaccount.com"
                           [] [Setup.GmailReadonlyScope;
                               Setup.GmailModifyScope] "me");
                      Setup.CallCloseConfig])).
  reflexivity.
Defined.

(** X19. [NewService] fails with the error of the first step that fails and
    runs no later step: a read error prevents parsing, a parse error
    prevents the construction of the Gmail client. *)
Theorem NewService_failure
  (parse : Setup.Parser)
  (gmailNewService : Setup.JWTConfig -> GmailService + error)
  (openFile : WriterGenerator) (config : Setup.ConfigReader)
  (userID : string) (err : error) :
  fst (Setup.NewService parse gmailNewService openFile config userID)
  = inr err ->
  let steps :=
    snd (Setup.NewService_body parse gmailNewService openFile config userID)
  in
  let scopes := [Setup.GmailReadonlyScope; Setup.GmailModifyScope] in
  (Setup.ReadAll config = inr err /\ steps = [Setup.CallReadAll])
  \/ (exists data,
        Setup.ReadAll config = inl data /\ parse data scopes = inr err
        /\ steps = [Setup.CallReadAll;
                    Setup.CallJWTConfigFromJSON data scopes])
  \/ (exists data parsed,
        Setup.ReadAll config = inl data /\ parse data scopes = inl parsed
        /\ gmailNewService (Setup.setSubject parsed userID) = inr err
        /\ steps = [Setup.CallReadAll;
                    Setup.CallJWTConfigFromJSON data scopes;
                    Setup.CallGmailNewService
                      (Setup.setSubject parsed userID)]).
Proof.
  unfold Setup.NewService, Setup.NewService_body, Setup.initializeJWTConfig.
  destruct (Setup.ReadAll config) as [data|e]; simpl.
  - destruct (parse data _) as [parsed|e] eqn:EP; simpl.
    + destruct (gmailNewService _) as [gs|e] eqn:EG; simpl;
        intros E; inversion E; subst.
      right; right. exists data, parsed. auto.
    + intros E; inversion E; subst. right; left. exists data. auto.
  - intros E; inversion E; subst. left. auto.
Qed.

Lemma NewService_failure_witness :
  (Setup.ReadAll brokenConfig = inr "read /dev/full: input/output error"
   /\ snd (Setup.NewService_body demoParse demoNewService memSink
             brokenConfig "me") = [Setup.CallReadAll])
  \/ (exists data,
        Setup.ReadAll brokenConfig = inl data
        /\ demoParse data [Setup.GmailReadonlyScope; Setup.GmailModifyScope]
           = inr "read /dev/full: input/output error"
        /\ snd (Setup.NewService_body demoParse demoNewService memSink
                  brokenConfig "me")
           = [Setup.CallReadAll;
              Setup.CallJWTConfigFromJSON data
                [Setup.GmailReadonlyScope; Setup.GmailModifyScope]])
  \/ (exists data parsed,
        Setup.ReadAll brokenConfig = inl data
        /\ demoParse data [Setup.GmailReadonlyScope; Setup.GmailModifyScope]
           = inl parsed
        /\ demoNewService (Setup.setSubject parsed "me")
           = inr "read /dev/full: input/output error"
        /\ snd (Setup.NewService_body demoParse demoNewService memSink
                  brokenConfig "me")
           = [Setup.CallReadAll;
              Setup.CallJWTConfigFromJSON data
                [Setup.GmailReadonlyScope; Setup.GmailModifyScope];
              Setup.CallGmailNewService (Setup.setSubject parsed "me")]).
Proof.
  apply (@NewService_failure demoParse demoNewService memSink brokenConfig
           "me" "read /dev/full: input/output error").
  reflexivity.
Defined.

(** * The inner loop of the run *)

Lemma rangeParts_app dec s msg l1 l2 :
  forall acc t,
    rangeParts dec s msg (l1 ++ l2) acc t
    = (r <- rangeParts dec s msg l1 acc ;;
       if snd r then rangeParts dec s msg l2 (fst r) else ret r) t.
Proof.
  induction l1 as [|p l1 IH]; intros acc t; simpl; mred; [reflexivity|].
  destruct (processAttachment dec s msg p t) as [[att|e] t1|t1];
    mred; try reflexivity.
  rewrite IH. mred. reflexivity.
Qed.

(** X20. Within one message [ProcessPDFAttachments] stops at the first part
    that cannot be written out (sink, decoder or write error): the
    attachments of the parts before it stay in the output, the parts after
    it are not handed to the sink, and the message is not completed. *)
Theorem rangeParts_stops_at_failure
  (dec : Decoder) (s : Service) (msg : Message)
  (before : list MessagePart) (q : MessagePart) (after : list MessagePart)
  (acc acc1 : ProcessedAttachments) (t t1 t2 : Trace) (e : error) :
  rangeParts dec s msg before acc t = Done (acc1, true) t1 ->
  processAttachment dec s msg q t1 = Done (inr e) t2 ->
  rangeParts dec s msg (before ++ q :: after) acc t = Done (acc1, false) t2
  /\ exists new, acc1 = acc ++ new
                 /\ List.length new = List.length before.
Proof.
  intros EB EQ. split.
  - rewrite rangeParts_app. mred. rewrite EB. simpl. mred. rewrite EQ.
    reflexivity.
  - destruct (rangeParts_keeps_earlier _ _ _ _ _ _ EB)
      as (new & -> & _ & Hok).
    exists new. split; [reflexivity|]. apply Hok. reflexivity.
Qed.

Lemma rangeParts_stops_at_failure_witness :
  rangeParts demoDecode (serviceOf boxNestedFailure) m6
    ([pdfPart "0" "a.pdf" "" "SGVsbG8="]
       ++ pdfPart "1" "b.pdf" "" "!!!"
       :: [pdfPart "2" "c.pdf" "" "SGVsbG8="]) [] []
  = Done ([mkAttachment (memWriter 0) "a.pdf-M6-0.pdf"], false)
         [CallWriterGenerator "a.pdf-M6-0.pdf"; CallWrite 0 helloBytes;
          CallWriterGenerator "b.pdf-M6-1.pdf"]
  /\ exists new,
       [mkAttachment (memWriter 0) "a.pdf-M6-0.pdf"] = [] ++ new
       /\ List.length new
          = List.length [pdfPart "0" "a.pdf" "" "SGVsbG8="].
Proof.
  apply (@rangeParts_stops_at_failure demoDecode
           (serviceOf boxNestedFailure) m6
           [pdfPart "0" "a.pdf" "" "SGVsbG8="]
           (pdfPart "1" "b.pdf" "" "!!!")
           [pdfPart "2" "c.pdf" "" "SGVsbG8="]
           [] [mkAttachment (memWriter 0) "a.pdf-M6-0.pdf"]
           [] [CallWriterGenerator "a.pdf-M6-0.pdf"; CallWrite 0 helloBytes]
           [CallWriterGenerator "a.pdf-M6-0.pdf"; CallWrite 0 helloBytes;
            CallWriterGenerator "b.pdf-M6-1.pdf"]
           "illegal base64 data at input byte 0"); reflexivity.
Defined.
